(** * SMessage: the room store and socket handlers of [server.js]

    A shallow embedding of the room registry ([rooms], [roomIds],
    [generateUniquePasscode]) and of the socket.io event handlers
    ([createRoom], [joinRoom], [sendMessage], [typing], [stopTyping],
    [quitRoom], [disconnect] and the expiry callback handed to
    [setTimeout]), followed by the properties of the room lifecycle.

    Randomness and the clock are inputs of the handlers: the successive
    values of [Math.random], the bytes of [crypto.randomBytes(16)] and the
    value of [Date.now()] are carried by the event that triggers the
    handler.  Emissions are recorded as a list of deliveries, one per
    receiving socket. *)

From Stdlib Require Import ZArith NArith.
From Stdlib.Strings Require Import Ascii String Byte.
From stdpp Require Import base option list strings pretty vector gmap.

Local Open Scope string_scope.
Local Open Scope list_scope.
Local Open Scope nat_scope.

(** ** JavaScript values used by the handlers *)

Module Js.

(** A payload field or a property of a socket is either [undefined]
    ([None]) or a string.  Truthiness as in [if (x)] and [x || d]: the
    empty string and [undefined] are falsy. *)
Definition truthy (v : option string) : bool :=
  match v with
  | Some s => bool_decide (s ≠ "")
  | None => false
  end.

(** [x || d] on a string default. *)
Definition or_else (v : option string) (d : string) : string :=
  match v with
  | Some s => if bool_decide (s ≠ "") then s else d
  | None => d
  end.

(** White space removed by [String.prototype.trim], on the ASCII range:
    TAB, LF, VT, FF, CR and SPACE.  Strings are sequences of bytes here, and
    the white space outside ASCII that [trim] removes as well (U+00A0,
    U+FEFF, U+2028 and the like) is not removed by this [trim]; what is
    proved about [trim] is about ASCII padding. *)
Definition is_white_space (a : ascii) : bool :=
  let n := N_of_ascii a in
  ((9 <=? n) && (n <=? 13))%N || (n =? 32)%N.

Fixpoint trimStart (s : string) : string :=
  match s with
  | String a s' => if is_white_space a then trimStart s' else s
  | EmptyString => EmptyString
  end.

Definition trimEnd (s : string) : string :=
  String.rev (trimStart (String.rev s)).

Definition trim (s : string) : string := trimEnd (trimStart s).

(** [Number.prototype.toString] on a non-negative integer. *)
Definition toString (n : N) : string := pretty n.

(** [Buffer.prototype.toString("hex")]: two lowercase digits per byte. *)
Definition hex_digit (n : N) : ascii :=
  if (n <? 10)%N then ascii_of_N (48 + n) else ascii_of_N (87 + n).

Definition hex (bytes : list byte) : string :=
  foldr (λ b s,
           let n := Byte.to_N b in
           String (hex_digit (n / 16)) (String (hex_digit (n mod 16)) s))
        "" bytes.

End Js.

(** ** The transport: socket.io's in-memory adapter

    [io.sockets.adapter.rooms] maps a room name to the set of ids of the
    sockets that joined it; [socket.rooms] is the same relation read from
    the socket's side.  A room whose last member leaves is removed from the
    map.  (The private room every socket has under its own id is left out:
    the handlers only ever name rooms by a generated [roomId].) *)

Module Adapter.

Definition membersOf (a : gmap string (gset string)) (room : string)
  : gset string := default ∅ (a !! room).

(** [socket.join(room)] *)
Definition join (sid room : string) (a : gmap string (gset string))
  : gmap string (gset string) :=
  <[room := {[sid]} ∪ membersOf a room]> a.

Definition drop (sid : string) (m : gset string) : option (gset string) :=
  let m' := m ∖ {[sid]} in
  if decide (m' = ∅) then None else Some m'.

(** [socket.leave(room)] *)
Definition leave (sid room : string) (a : gmap string (gset string))
  : gmap string (gset string) :=
  match a !! room with
  | Some m =>
      match drop sid m with
      | Some m' => <[room := m']> a
      | None => delete room a
      end
  | None => a
  end.

(** What the transport does for a socket that closes. *)
Definition leaveAll (sid : string) (a : gmap string (gset string))
  : gmap string (gset string) := omap (drop sid) a.

(** [io.socketsLeave(room)] *)
Definition socketsLeave (room : string) (a : gmap string (gset string))
  : gmap string (gset string) := delete room a.

(** [socket.rooms.has(room)] *)
Definition has (a : gmap string (gset string)) (sid room : string) : bool :=
  bool_decide (sid ∈ membersOf a room).

End Adapter.

(** ** Data *)

(** The value stored under a passcode: [{ roomId, expireAt }]. *)
Record Room := mkRoom { roomId : string; expireAt : Z }.

(** The two properties the handlers keep on a socket object. *)
Record Socket := mkSocket {
  socket_roomId : option string;
  socket_userName : option string
}.

(** The argument of [joinRoom]: [{ passcode, roomId, name }]. *)
Record JoinArgs := mkJoinArgs {
  arg_passcode : option string;
  arg_roomId : option string;
  arg_name : option string
}.

(** What a socket receives: the event name with its payload. *)
Inductive Emitted :=
| roomCreated (passcode rid : string) (expireAt : Z)
| joinSuccess (rid : string) (passcode : option string) (expireAt : Z)
| systemMessage (text : string)
| newMessage (message : string) (from : option string)
| showTyping
| hideTyping.

(** The process state: the room store, the adapter, the connected sockets
    and the expiry callbacks that [setTimeout] still holds, each with the
    [passcode] and [roomId] its closure captured. *)
Record Server := mkServer {
  rooms : gmap string Room;
  roomIds : gmap string string;
  adapter : gmap string (gset string);
  sockets : gmap string Socket;
  timers : list (string * string)
}.

#[global] Instance Room_eq_dec : EqDecision Room.
Proof. solve_decision. Defined.
#[global] Instance Socket_eq_dec : EqDecision Socket.
Proof. solve_decision. Defined.
#[global] Instance Emitted_eq_dec : EqDecision Emitted.
Proof. solve_decision. Defined.

Definition initial : Server :=
  {| rooms := ∅; roomIds := ∅; adapter := ∅; sockets := ∅; timers := [] |}.

(** ** Emission *)

(** [socket.emit(e)] *)
Definition emit (sid : string) (e : Emitted) : list (string * Emitted) :=
  [(sid, e)].

(** [io.to(room).emit(e)]: every member of the room. *)
Definition io_to_emit (a : gmap string (gset string)) (room : string)
    (e : Emitted) : list (string * Emitted) :=
  (λ d, (d, e)) <$> elements (Adapter.membersOf a room).

(** [socket.to(room).emit(e)]: every member of the room but the sender. *)
Definition socket_to_emit (a : gmap string (gset string)) (sid room : string)
    (e : Emitted) : list (string * Emitted) :=
  (λ d, (d, e)) <$> elements (Adapter.membersOf a room ∖ {[sid]}).

(** ** The room store *)

(** [Math.floor(100000 + Math.random() * 900000).toString()], where [k] is
    what the floor exceeds 100000 by: the draw is the integer
    [Math.floor(100000 + Math.random() * 900000) - 100000], between 0 and
    899999. *)
Definition candidate (k : N) : string := Js.toString (100000 + k).

(** The [do ... while (rooms.has(passcode))] loop over the successive
    random draws.  [None] when the draws run out before a free passcode is
    found: the loop has not returned. *)
Fixpoint generateUniquePasscode (rooms : gmap string Room) (draws : list N)
    : option string :=
  match draws with
  | [] => None
  | k :: draws' =>
      let passcode := candidate k in
      if decide (is_Some (rooms !! passcode))
      then generateUniquePasscode rooms draws'
      else Some passcode
  end.

(** ** Handlers *)

(** [socket.roomId = rid] *)
Definition set_roomId (rid : string) (sk : Socket) : Socket :=
  {| socket_roomId := Some rid; socket_userName := socket_userName sk |}.

(** [socket.userName = name] *)
Definition set_userName (name : string) (sk : Socket) : Socket :=
  {| socket_roomId := socket_roomId sk; socket_userName := Some name |}.

(** The callback of [setTimeout] in [createRoom]. *)
Definition expire (passcode rid : string) (s : Server)
    : Server * list (string * Emitted) :=
  if decide (is_Some (rooms s !! passcode)) then
    ({| rooms := delete passcode (rooms s);
        roomIds := delete rid (roomIds s);
        adapter := Adapter.socketsLeave rid (adapter s);
        sockets := sockets s;
        timers := timers s |},
     io_to_emit (adapter s) rid (systemMessage "⚠️ Room expired."))
  else (s, []).

Definition createRoom (sid : string) (draws : list N) (bytes : vec byte 16)
    (now : Z) (s : Server) : option (Server * list (string * Emitted)) :=
  passcode ← generateUniquePasscode (rooms s) draws;
  let rid := Js.hex (vec_to_list bytes) in
  let expiresIn := (40 * 60 * 1000)%Z in
  let expireAt := (now + expiresIn)%Z in
  Some ({| rooms := <[passcode := mkRoom rid expireAt]> (rooms s);
           roomIds := <[rid := passcode]> (roomIds s);
           adapter := Adapter.join sid rid (adapter s);
           sockets := alter (set_roomId rid) sid (sockets s);
           timers := timers s ++ [(passcode, rid)] |},
        emit sid (roomCreated passcode rid expireAt)).

(** The first half of [joinRoom]: find the room by passcode, else by
    [roomId] through the reverse mapping. *)
Definition findRoom (s : Server) (args : JoinArgs) : option Room :=
  if Js.truthy (arg_passcode args) then
    rooms s !! Js.trim (default "" (arg_passcode args))
  else if Js.truthy (arg_roomId args) then
    let pCode := roomIds s !! default "" (arg_roomId args) in
    if Js.truthy pCode then rooms s !! default "" pCode else None
  else None.

(** [members && members.size >= 2 && !socket.rooms.has(roomId)] *)
Definition isFull (a : gmap string (gset string)) (sid rid : string) : bool :=
  match a !! rid with
  | Some members => bool_decide (2 ≤ size members) && negb (Adapter.has a sid rid)
  | None => false
  end.

Definition joinRoom (sid : string) (args : JoinArgs) (s : Server)
    : Server * list (string * Emitted) :=
  match findRoom s args with
  | None => (s, emit sid (systemMessage "Invalid or expired passcode."))
  | Some roomData =>
      let rid := roomId roomData in
      if isFull (adapter s) sid rid then
        (s, emit sid (systemMessage "Room is full."))
      else
        let userName := Js.or_else (arg_name args) "Anonymous" in
        let a' := Adapter.join sid rid (adapter s) in
        ({| rooms := rooms s;
            roomIds := roomIds s;
            adapter := a';
            sockets :=
              alter (set_userName userName ∘ set_roomId rid) sid (sockets s);
            timers := timers s |},
         emit sid (joinSuccess rid (roomIds s !! rid) (expireAt roomData))
         ++ io_to_emit a' rid (systemMessage (userName +:+ " joined.")))
  end.

(** A socket property inside a template literal: [`${x}`]. *)
Definition interpolate (v : option string) : string := default "undefined" v.

(** The handlers below read the socket object [sk] of the connection. *)
Definition sendMessage (sid : string) (sk : Socket) (message : string)
    (s : Server) : Server * list (string * Emitted) :=
  if negb (Js.truthy (socket_roomId sk)) then (s, [])
  else
    (s, socket_to_emit (adapter s) sid (default "" (socket_roomId sk))
          (newMessage message (socket_userName sk))).

Definition typing (sid : string) (sk : Socket) (s : Server)
    : Server * list (string * Emitted) :=
  if Js.truthy (socket_roomId sk)
  then (s, socket_to_emit (adapter s) sid (default "" (socket_roomId sk)) showTyping)
  else (s, []).

Definition stopTyping (sid : string) (sk : Socket) (s : Server)
    : Server * list (string * Emitted) :=
  if Js.truthy (socket_roomId sk)
  then (s, socket_to_emit (adapter s) sid (default "" (socket_roomId sk)) hideTyping)
  else (s, []).

Definition quitRoom (sid : string) (sk : Socket) (s : Server)
    : Server * list (string * Emitted) :=
  if negb (Js.truthy (socket_roomId sk)) then (s, [])
  else
    let rid := default "" (socket_roomId sk) in
    ({| rooms := rooms s;
        roomIds := roomIds s;
        adapter := Adapter.leave sid rid (adapter s);
        sockets := sockets s;
        timers := timers s |},
     socket_to_emit (adapter s) sid rid
       (systemMessage (interpolate (socket_userName sk) +:+ " left."))).

(** The transport takes a closing socket out of every room before the
    [disconnect] handler runs; the socket object is dropped afterwards. *)
Definition disconnect (sid : string) (sk : Socket) (s : Server)
    : Server * list (string * Emitted) :=
  let a' := Adapter.leaveAll sid (adapter s) in
  let s' := {| rooms := rooms s;
               roomIds := roomIds s;
               adapter := a';
               sockets := delete sid (sockets s);
               timers := timers s |} in
  if Js.truthy (socket_roomId sk) then
    (s', socket_to_emit a' sid (default "" (socket_roomId sk))
           (systemMessage (Js.or_else (socket_userName sk) "User" +:+ " disconnected.")))
  else (s', []).

(** [io.on("connection", ...)]: a new socket object, no property set. *)
Definition connection (sid : string) (s : Server) : Server :=
  {| rooms := rooms s;
     roomIds := roomIds s;
     adapter := adapter s;
     sockets := <[sid := mkSocket None None]> (sockets s);
     timers := timers s |}.

(** ** The event loop *)

(** One event at a time runs to completion. *)
Inductive Event :=
| Connection (sid : string)
| CreateRoom (sid : string) (draws : list N) (bytes : vec byte 16) (now : Z)
| JoinRoom (sid : string) (args : JoinArgs)
| SendMessage (sid : string) (message : string)
| Typing (sid : string)
| StopTyping (sid : string)
| QuitRoom (sid : string)
| Disconnect (sid : string)
| Timeout (passcode rid : string).

(** Takes the first callback equal to [t] out of the pending ones. *)
Fixpoint clearTimer (t : string * string) (l : list (string * string))
    : option (list (string * string)) :=
  match l with
  | [] => None
  | x :: l' => if decide (x = t) then Some l' else (x ::.) <$> clearTimer t l'
  end.

Definition with_timers (l : list (string * string)) (s : Server) : Server :=
  {| rooms := rooms s; roomIds := roomIds s; adapter := adapter s;
     sockets := sockets s; timers := l |}.

(** [None] when the event cannot occur in [s]: a client event of a socket
    that is not connected, a connection under an id in use, a timeout that
    is not pending, or a [createRoom] whose passcode loop has not returned
    on the given draws. *)
Definition step (s : Server) (ev : Event)
    : option (Server * list (string * Emitted)) :=
  match ev with
  | Connection sid =>
      match sockets s !! sid with
      | None => Some (connection sid s, [])
      | Some _ => None
      end
  | CreateRoom sid draws bytes now =>
      _ ← sockets s !! sid; createRoom sid draws bytes now s
  | JoinRoom sid args => _ ← sockets s !! sid; Some (joinRoom sid args s)
  | SendMessage sid message =>
      sk ← sockets s !! sid; Some (sendMessage sid sk message s)
  | Typing sid => sk ← sockets s !! sid; Some (typing sid sk s)
  | StopTyping sid => sk ← sockets s !! sid; Some (stopTyping sid sk s)
  | QuitRoom sid => sk ← sockets s !! sid; Some (quitRoom sid sk s)
  | Disconnect sid => sk ← sockets s !! sid; Some (disconnect sid sk s)
  | Timeout passcode rid =>
      l ← clearTimer (passcode, rid) (timers s);
      Some (expire passcode rid (with_timers l s))
  end.

(** A sequence of events, with what each of them emitted. *)
Fixpoint run (s : Server) (evs : list Event)
    : option (Server * list (list (string * Emitted))) :=
  match evs with
  | [] => Some (s, [])
  | ev :: evs' =>
      '(s1, out) ← step s ev;
      '(s2, outs) ← run s1 evs';
      Some (s2, out :: outs)
  end.

(** States the server can be in. *)
Inductive reachable : Server → Prop :=
| reachable_initial : reachable initial
| reachable_step s ev s' out :
    reachable s → step s ev = Some (s', out) → reachable s'.

(** The room key drawn by a [createRoom] event is not one of a live room. *)
Definition fresh_roomId (s : Server) (ev : Event) : Prop :=
  match ev with
  | CreateRoom _ _ bytes _ => roomIds s !! Js.hex (vec_to_list bytes) = None
  | _ => True
  end.

(** States reached while no [createRoom] drew the key of a live room. *)
Inductive reachable_fresh : Server → Prop :=
| reachable_fresh_initial : reachable_fresh initial
| reachable_fresh_step s ev s' out :
    reachable_fresh s → fresh_roomId s ev → step s ev = Some (s', out) →
    reachable_fresh s'.

(** ** Concrete runs *)

Module Scenario.

Definition bytesA : vec byte 16 :=
  [# x00; x01; x02; x03; x04; x05; x06; x07;
     x08; x09; x0a; x0b; x0c; x0d; x0e; xff ].

Definition bytesB : vec byte 16 :=
  [# x10; x11; x12; x13; x14; x15; x16; x17;
     x18; x19; x1a; x1b; x1c; x1d; x1e; x1f ].

Definition keyA : string := "000102030405060708090a0b0c0d0eff".

Definition byPasscode (p name : string) : JoinArgs :=
  mkJoinArgs (Some p) None (Some name).

(** A creates a room, B joins it with the passcode. *)
Definition two_party : list Event :=
  [ Connection "a"; Connection "b";
    CreateRoom "a" [23456%N] bytesA 1000;
    JoinRoom "b" (byPasscode "123456" "Bob") ].

(** The state after [evs], from the initial state. *)
Definition after (evs : list Event) : Server :=
  default initial (fst <$> run initial evs).

(** What the last event of [evs] emitted. *)
Definition last_emitted (evs : list Event) : list (string * Emitted) :=
  default [] ((snd <$> run initial evs) ≫= last).

(** Two [createRoom] calls for which [crypto.randomBytes] returned the
    same sixteen bytes. *)
Definition same_key_twice : list Event :=
  [ Connection "a";
    CreateRoom "a" [0%N] bytesA 1000;
    CreateRoom "a" [1%N] bytesA 2000 ].

(** A third socket creates a room under the key of a room that already
    has two members. *)
Definition crowded : list Event :=
  two_party ++ [ Connection "c"; CreateRoom "c" [1%N] bytesA 5000 ].

(** B leaves the room, then sends a message. *)
Definition quit_then_send : list Event :=
  two_party ++ [ QuitRoom "b"; SendMessage "b" "still here" ].

End Scenario.

(** ** Statements about states and runs *)

(** The two mappings index the same rooms: [roomIds.get(rooms.get(p).roomId)]
    is [p] for every passcode of [rooms], and every entry of [roomIds]
    leads back to an entry of [rooms] with that key. *)
Definition index_consistent (s : Server) : Prop :=
  (∀ p room, rooms s !! p = Some room → roomIds s !! roomId room = Some p) ∧
  (∀ r p, roomIds s !! r = Some p →
          ∃ room, rooms s !! p = Some room ∧ roomId room = r).

(** The room of every live key holds at most two sockets. *)
Definition capacity_bound (s : Server) : Prop :=
  ∀ r, is_Some (roomIds s !! r) → size (Adapter.membersOf (adapter s) r) ≤ 2.

(** The join notice of a successful [joinRoom] reaches the members of the
    room other than the joining socket, and nobody else. *)
Definition notice_skips_joiner : Prop :=
  ∀ s sid args s' out rid pc e d,
    step s (JoinRoom sid args) = Some (s', out) →
    (sid, joinSuccess rid pc e) ∈ out →
    (d, systemMessage (Js.or_else (arg_name args) "Anonymous" +:+ " joined.")) ∈ out
    ↔ d ∈ Adapter.membersOf (adapter s') rid ∧ d ≠ sid.

(** A successful [joinRoom] for another room changes, of the socket
    object, [socket.roomId] and nothing else. *)
Definition join_overwrites_roomId_only : Prop :=
  ∀ s c A args B pc e s' out,
    c ∈ Adapter.membersOf (adapter s) A →
    step s (JoinRoom c args) = Some (s', out) →
    (c, joinSuccess B pc e) ∈ out →
    B ≠ A →
    sockets s' !! c = set_roomId B <$> sockets s !! c.

Module TwoRooms.

Definition keyB : string := "101112131415161718191a1b1c1d1e1f".

(** B creates a room that A joins as "Al"; then B creates a second room. *)
Definition before : list Event :=
  [ Connection "a"; Connection "b";
    CreateRoom "b" [23456%N] Scenario.bytesA 1000;
    JoinRoom "a" (Scenario.byPasscode "123456" "Al");
    CreateRoom "b" [5%N] Scenario.bytesB 2000 ].

(** A joins the second room as "Zed". *)
Definition second_join : Event :=
  JoinRoom "a" (Scenario.byPasscode "100005" "Zed").

End TwoRooms.

(** The event is not [joinRoom] or [disconnect] of the socket [c]. *)
Definition no_join_by (c : string) (ev : Event) : Prop :=
  match ev with
  | JoinRoom sid _ | Disconnect sid => sid ≠ c
  | _ => True
  end.

#[global] Instance fresh_roomId_dec s ev : Decision (fresh_roomId s ev).
Proof. destruct ev; simpl; apply _. Defined.

(** [run], refusing a [createRoom] that draws the key of a live room. *)
Fixpoint run_fresh (s : Server) (evs : list Event) : option Server :=
  match evs with
  | [] => Some s
  | ev :: evs' =>
      if decide (fresh_roomId s ev)
      then '(s1, _) ← step s ev; run_fresh s1 evs'
      else None
  end.

(** ** Invariants *)

(** Every pending timeout belongs to a live room, whose key it captured,
    and no two pending timeouts captured the same passcode. *)
Record timers_inv (s : Server) : Prop := {
  inv_timers : ∀ p r,
    (p, r) ∈ timers s → ∃ room, rooms s !! p = Some room ∧ roomId room = r;
  inv_timers_NoDup : NoDup (timers s).*1
}.

(** What holds of the store and of the adapter as long as no [createRoom]
    draws the [roomId] of a live room. *)
Record store_inv (s : Server) : Prop := {
  inv_forward : ∀ p room,
    rooms s !! p = Some room → roomIds s !! roomId room = Some p;
  inv_backward : ∀ r p,
    roomIds s !! r = Some p → ∃ room, rooms s !! p = Some room ∧ roomId room = r;
  inv_groups : ∀ r m,
    adapter s !! r = Some m → is_Some (roomIds s !! r) ∧ size m ≤ 2
}.

(** ** Formats *)

Fixpoint string_forallb (P : ascii → bool) (s : string) : bool :=
  match s with
  | EmptyString => true
  | String a s' => P a && string_forallb P s'
  end.

Definition is_digit (a : ascii) : bool :=
  let n := N_of_ascii a in ((48 <=? n) && (n <=? 57))%N.

Definition is_hex_digit (a : ascii) : bool :=
  let n := N_of_ascii a in
  ((48 <=? n) && (n <=? 57))%N || ((97 <=? n) && (n <=? 102))%N.

(** Six decimal digits, the first of them not 0. *)
Definition is_passcode (p : string) : bool :=
  bool_decide (String.length p = 6) && string_forallb is_digit p
  && negb (bool_decide (String.get 0 p = Some "0"%char)).

(** Thirty-two lowercase hexadecimal digits. *)
Definition is_roomId (rid : string) : bool :=
  bool_decide (String.length rid = 32) && string_forallb is_hex_digit rid.

(** ** More invariants *)

(** Every room of [rooms] has its timeout pending. *)
Definition rooms_scheduled (s : Server) : Prop :=
  ∀ p room, rooms s !! p = Some room → (p, roomId room) ∈ timers s.

(** The keys of [rooms] are generated passcodes and the keys stored with
    them are generated room keys. *)
Definition keys_generated (s : Server) : Prop :=
  ∀ p room, rooms s !! p = Some room →
            (∃ k, p = candidate k) ∧ is_roomId (roomId room) = true.

(** The adapter holds no empty room, and only connected sockets. *)
Record adapter_inv (s : Server) : Prop := {
  inv_nonempty : ∀ r m, adapter s !! r = Some m → m ≠ ∅;
  inv_connected : ∀ r m d,
    adapter s !! r = Some m → d ∈ m → is_Some (sockets s !! d)
}.

(** [roomCreated] and [joinSuccess], the two answers that tell a socket it
    is in a room. *)
Definition is_placement (e : Emitted) : bool :=
  match e with
  | roomCreated _ _ _ | joinSuccess _ _ _ => true
  | _ => false
  end.

(** * Properties *)

(** In a proof about [step] on a client event: the socket [sid] is
    connected, or there is no step. *)
Ltac socket_of sid :=
  destruct (sockets _ !! sid) as [?sk|]; simpl; [|done].

(** ** Strings *)

Section strings.

(** A generated [roomId] is a non-empty string, hence truthy. *)
Lemma hex_truthy (bytes : vec byte 16) :
  Js.truthy (Some (Js.hex (vec_to_list bytes))) = true.
Proof.
  inv_vec bytes; intros b bytes. reflexivity.
Qed.

Lemma string_app_length (s1 s2 : string) :
  String.length (s1 +:+ s2) = String.length s1 + String.length s2.
Proof. induction s1 as [|a s1 IH]; simpl; [done | by rewrite IH]. Qed.

(** No display name turns the join notice into the rejection notice. *)
Lemma joined_is_not_full (name : string) :
  name +:+ " joined." ≠ "Room is full.".
Proof.
  intros H. pose proof (f_equal String.length H) as Hlen.
  rewrite string_app_length in Hlen. simpl in Hlen.
  do 6 (destruct name as [|? name]; simpl in *; try lia; try discriminate).
Qed.

End strings.

(** ** The passcode loop *)

Section passcode.

Context (store : gmap string Room).

Lemma generateUniquePasscode_free draws p :
  generateUniquePasscode store draws = Some p →
  store !! p = None ∧ ∃ k, k ∈ draws ∧ p = candidate k.
Proof.
  induction draws as [|k draws IH]; simpl; [done|].
  case_decide as Hk.
  - intros Hp. destruct (IH Hp) as (Hfree & k' & Hin & ->).
    split; [done|]. exists k'. split; [by right | done].
  - intros [= <-]. split.
    + by apply eq_None_not_Some.
    + exists k. split; [by left | done].
Qed.

Lemma generateUniquePasscode_returns draws k :
  k ∈ draws → store !! candidate k = None →
  is_Some (generateUniquePasscode store draws).
Proof.
  induction draws as [|k' draws IH]; intros Hin Hfree.
  - by apply elem_of_nil in Hin.
  - simpl. case_decide as Hk'; [|by eexists].
    apply elem_of_cons in Hin as [->|Hin]; [|by apply IH].
    rewrite Hfree in Hk'. by destruct Hk'.
Qed.

End passcode.

(** ** The adapter *)

Section adapter.

Context (a : gmap string (gset string)).

Lemma membersOf_Some room m : a !! room = Some m → Adapter.membersOf a room = m.
Proof. unfold Adapter.membersOf. by intros ->. Qed.

Lemma membersOf_None room : a !! room = None → Adapter.membersOf a room = ∅.
Proof. unfold Adapter.membersOf. by intros ->. Qed.

Lemma membersOf_join sid room :
  Adapter.membersOf (Adapter.join sid room a) room
  = {[sid]} ∪ Adapter.membersOf a room.
Proof. unfold Adapter.join, Adapter.membersOf at 1. by rewrite lookup_insert_eq. Qed.

Lemma membersOf_join_ne sid room room' :
  room ≠ room' →
  Adapter.membersOf (Adapter.join sid room a) room' = Adapter.membersOf a room'.
Proof.
  intros Hne. unfold Adapter.join, Adapter.membersOf.
  by rewrite lookup_insert_ne.
Qed.

Lemma drop_Some sid m m' : Adapter.drop sid m = Some m' → m' = m ∖ {[sid]}.
Proof. unfold Adapter.drop. case_decide; [done|]. by intros [= <-]. Qed.

Lemma drop_None sid m : Adapter.drop sid m = None → m ∖ {[sid]} = ∅.
Proof. unfold Adapter.drop. by case_decide. Qed.

Lemma membersOf_leave sid room :
  Adapter.membersOf (Adapter.leave sid room a) room
  = Adapter.membersOf a room ∖ {[sid]}.
Proof.
  unfold Adapter.leave, Adapter.membersOf.
  destruct (a !! room) as [m|] eqn:Hm; simpl.
  - destruct (Adapter.drop sid m) as [m'|] eqn:Hd.
    + apply drop_Some in Hd as ->. by rewrite lookup_insert_eq.
    + apply drop_None in Hd. by rewrite lookup_delete_eq, Hd.
  - rewrite Hm. simpl. set_solver.
Qed.

Lemma membersOf_leave_ne sid room room' :
  room ≠ room' →
  Adapter.membersOf (Adapter.leave sid room a) room' = Adapter.membersOf a room'.
Proof.
  intros Hne. unfold Adapter.leave, Adapter.membersOf.
  destruct (a !! room) as [m|]; [|done].
  destruct (Adapter.drop sid m).
  - by rewrite lookup_insert_ne.
  - by rewrite lookup_delete_ne.
Qed.

Lemma membersOf_leaveAll sid room :
  Adapter.membersOf (Adapter.leaveAll sid a) room
  = Adapter.membersOf a room ∖ {[sid]}.
Proof.
  unfold Adapter.leaveAll, Adapter.membersOf. rewrite lookup_omap.
  destruct (a !! room) as [m|]; simpl; [|set_solver].
  destruct (Adapter.drop sid m) as [m'|] eqn:Hd; simpl.
  - by apply drop_Some in Hd.
  - by apply drop_None in Hd.
Qed.

Lemma membersOf_socketsLeave room :
  Adapter.membersOf (Adapter.socketsLeave room a) room = ∅.
Proof.
  unfold Adapter.socketsLeave, Adapter.membersOf. by rewrite lookup_delete_eq.
Qed.

Lemma lookup_leave_Some sid room room' m' :
  Adapter.leave sid room a !! room' = Some m' →
  ∃ m, a !! room' = Some m ∧ m' ⊆ m.
Proof.
  unfold Adapter.leave. destruct (a !! room) as [m|] eqn:Hm; [|by eauto].
  destruct (Adapter.drop sid m) as [m1|] eqn:Hd.
  - apply drop_Some in Hd as ->.
    destruct (decide (room = room')) as [<-|Hne].
    + rewrite lookup_insert_eq. intros [= <-]. exists m. set_solver.
    + rewrite lookup_insert_ne by done. eauto.
  - destruct (decide (room = room')) as [<-|Hne].
    + by rewrite lookup_delete_eq.
    + rewrite lookup_delete_ne by done. eauto.
Qed.

Lemma lookup_leaveAll_Some sid room m' :
  Adapter.leaveAll sid a !! room = Some m' →
  ∃ m, a !! room = Some m ∧ m' ⊆ m.
Proof.
  unfold Adapter.leaveAll. rewrite lookup_omap.
  destruct (a !! room) as [m|]; simpl; [|done].
  intros Hd%drop_Some. exists m. set_solver.
Qed.

End adapter.

(** ** Emission *)

Lemma elem_of_io_to_emit a room e d e' :
  (d, e') ∈ io_to_emit a room e ↔ e' = e ∧ d ∈ Adapter.membersOf a room.
Proof.
  unfold io_to_emit. rewrite list_elem_of_fmap. split.
  - intros (x & [= -> ->] & Hx%elem_of_elements). done.
  - intros [-> Hd]. exists d. by rewrite elem_of_elements.
Qed.

Lemma elem_of_socket_to_emit a sid room e d e' :
  (d, e') ∈ socket_to_emit a sid room e
  ↔ e' = e ∧ d ∈ Adapter.membersOf a room ∧ d ≠ sid.
Proof.
  unfold socket_to_emit. rewrite list_elem_of_fmap. split.
  - intros (x & [= -> ->] & Hx%elem_of_elements). set_solver.
  - intros (-> & Hd & Hne). exists d. rewrite elem_of_elements. set_solver.
Qed.

Lemma NoDup_io_to_emit a room e : NoDup (io_to_emit a room e).
Proof.
  unfold io_to_emit. apply NoDup_fmap_2; [|apply NoDup_elements].
  by intros x y [= ->].
Qed.

(** ** Pending timeouts *)

Lemma clearTimer_Some t l l' :
  clearTimer t l = Some l' → ∃ l1 l2, l = l1 ++ t :: l2 ∧ l' = l1 ++ l2.
Proof.
  revert l'. induction l as [|x l IH]; intros l'; simpl; [done|].
  case_decide as Hx.
  - intros [= <-]. subst x. by exists [], l.
  - destruct (clearTimer t l) as [k|]; simpl; [|done].
    intros [= <-]. destruct (IH k eq_refl) as (l1 & l2 & -> & ->).
    by exists (x :: l1), l2.
Qed.

Lemma clearTimer_pending t l : t ∈ l → is_Some (clearTimer t l).
Proof.
  induction l as [|x l IH]; intros Hin; [by apply elem_of_nil in Hin|].
  simpl. case_decide as Hx; [by eexists|].
  apply elem_of_cons in Hin as [->|Hin]; [done|].
  destruct (IH Hin) as [k ->]. by eexists.
Qed.

(** ** Looking a room up *)

Lemma findRoom_live s args room :
  findRoom s args = Some room → ∃ p, rooms s !! p = Some room.
Proof.
  unfold findRoom. repeat case_match; try done; eauto.
Qed.

(** ** Events that leave the store alone *)

Lemma step_store_unchanged s ev s' out :
  step s ev = Some (s', out) →
  match ev with
  | CreateRoom _ _ _ _ | Timeout _ _ => True
  | _ => rooms s' = rooms s ∧ roomIds s' = roomIds s ∧ timers s' = timers s
  end.
Proof.
  destruct ev as [sid|sid draws bytes now|sid args|sid msg|sid|sid|sid|sid|p r];
    simpl; try done.
  - case_match; [done|]. by intros [= <- _].
  - socket_of sid. unfold joinRoom.
    intros [= Heq]. by repeat case_match; simplify_eq.
  - socket_of sid. unfold sendMessage.
    by case_match; intros [= <- _].
  - socket_of sid. unfold typing.
    by case_match; intros [= <- _].
  - socket_of sid. unfold stopTyping.
    by case_match; intros [= <- _].
  - socket_of sid. unfold quitRoom.
    by case_match; intros [= <- _].
  - socket_of sid. unfold disconnect.
    by case_match; intros [= <- _].
Qed.

(** ** The pending timeouts and the live rooms *)

Lemma timers_inv_initial : timers_inv initial.
Proof.
  split; simpl.
  - intros p r Hin. by apply elem_of_nil in Hin.
  - constructor.
Qed.

(** [createRoom] leaves the callback for its room pending. *)
Lemma createRoom_sets_timeout sid draws bytes now s s' out :
  createRoom sid draws bytes now s = Some (s', out) →
  ∃ p, out = [(sid, roomCreated p (Js.hex (vec_to_list bytes))
                      (now + 2400000)%Z)] ∧
       (p, Js.hex (vec_to_list bytes)) ∈ timers s'.
Proof.
  unfold createRoom.
  destruct (generateUniquePasscode (rooms s) draws) as [p|]; simpl; [|done].
  intros [= <- <-]. exists p. split; [done|]. simpl.
  apply elem_of_app. right. by left.
Qed.

Lemma timers_inv_createRoom sid draws bytes now s s' out :
  timers_inv s →
  createRoom sid draws bytes now s = Some (s', out) →
  timers_inv s'.
Proof.
  intros [Ht Hnd]. unfold createRoom.
  destruct (generateUniquePasscode (rooms s) draws) as [p|] eqn:Hp; simpl; [|done].
  apply generateUniquePasscode_free in Hp as [Hp _].
  intros [= <- _]. split; simpl.
  - intros p' r. rewrite elem_of_app, list_elem_of_singleton.
    intros [Hin|[= -> ->]].
    + destruct (Ht _ _ Hin) as (room & Hroom & Hrid).
      exists room. split; [|done].
      rewrite lookup_insert_ne; [done|]. intros ->. congruence.
    + eexists. by rewrite lookup_insert_eq.
  - rewrite fmap_app. simpl.
    apply NoDup_app. split_and!; [done| |apply NoDup_singleton].
    intros p' Hin ->%list_elem_of_singleton.
    apply list_elem_of_fmap in Hin as ([p1 r1] & -> & Hin). simpl in *.
    destruct (Ht _ _ Hin) as (room & Hroom & _). congruence.
Qed.

(** The passcodes of the timeouts around a pending one are other passcodes. *)
Lemma timers_NoDup_split (l1 l2 : list (string * string)) p r p' r' :
  NoDup (l1 ++ (p, r) :: l2).*1 → (p', r') ∈ l1 ++ l2 → p' ≠ p.
Proof.
  rewrite fmap_app, fmap_cons. simpl.
  intros (_ & Hdisj & [Hp2 _]%NoDup_cons)%NoDup_app Hin ->.
  apply elem_of_app in Hin as [Hin|Hin].
  - apply (Hdisj p); [by apply (list_elem_of_fmap_2 fst _ (p, r'))|by left].
  - apply Hp2. by apply (list_elem_of_fmap_2 fst _ (p, r')).
Qed.

Lemma timers_inv_expire p r l1 l2 s :
  timers_inv s → timers s = l1 ++ (p, r) :: l2 →
  timers_inv (expire p r (with_timers (l1 ++ l2) s)).1.
Proof.
  intros [Ht Hnd] Htm.
  destruct (Ht p r) as (room & Hroom & Hrid).
  { rewrite Htm. apply elem_of_app. right. by left. }
  rewrite Htm in Hnd.
  unfold expire. simpl. rewrite Hroom.
  rewrite decide_True by (by eexists). split; simpl.
  - intros p' r' Hin.
    assert ((p', r') ∈ timers s) as Hin0.
    { rewrite Htm. apply elem_of_app. apply elem_of_app in Hin as [?|?];
        [by left | by right; right]. }
    destruct (Ht _ _ Hin0) as (room' & Hroom' & Hrid').
    exists room'. split; [|done].
    rewrite lookup_delete_ne; [done|].
    intros ->. by eapply timers_NoDup_split.
  - rewrite fmap_app, fmap_cons in Hnd. simpl in Hnd.
    apply NoDup_app in Hnd as (Hnd1 & Hdisj & [_ Hnd2]%NoDup_cons).
    rewrite fmap_app. apply NoDup_app. split_and!; [done| |done].
    intros x Hx1 Hx2. apply (Hdisj x Hx1). by right.
Qed.

Lemma timers_inv_step s ev s' out :
  timers_inv s → step s ev = Some (s', out) → timers_inv s'.
Proof.
  intros Hinv Hstep. pose proof (step_store_unchanged _ _ _ _ Hstep) as Hsame.
  destruct ev as [sid|sid draws bytes now|sid args|sid msg|sid|sid|sid|sid|p r];
    try (destruct Hsame as (Hrooms & _ & Htimers), Hinv as [Ht Hnd];
         split; rewrite ?Hrooms, ?Htimers; done).
  - simpl in Hstep. destruct (sockets s !! sid); simpl in Hstep; [|done].
    by eapply timers_inv_createRoom.
  - simpl in Hstep.
    destruct (clearTimer (p, r) (timers s)) as [l|] eqn:Hl; simpl in Hstep; [|done].
    apply clearTimer_Some in Hl as (l1 & l2 & Htm & ->).
    injection Hstep as Heq.
    rewrite (surjective_pairing (expire p r _)) in Heq.
    injection Heq as <- _. by apply timers_inv_expire.
Qed.

Lemma reachable_timers_inv s : reachable s → timers_inv s.
Proof.
  induction 1 as [|s ev s' out _ IH Hstep]; [apply timers_inv_initial|].
  by eapply timers_inv_step.
Qed.

Lemma reachable_fresh_reachable s : reachable_fresh s → reachable s.
Proof.
  induction 1 as [|s ev s' out _ IH _ Hstep]; [apply reachable_initial|].
  by eapply reachable_step.
Qed.

(** ** The two mappings and the adapter *)

Lemma store_inv_initial : store_inv initial.
Proof. by split. Qed.

Lemma store_inv_createRoom sid draws bytes now s s' out :
  store_inv s →
  roomIds s !! Js.hex (vec_to_list bytes) = None →
  createRoom sid draws bytes now s = Some (s', out) →
  store_inv s'.
Proof.
  intros [Hf Hb Hg] Hfresh. unfold createRoom.
  destruct (generateUniquePasscode (rooms s) draws) as [p|] eqn:Hp; simpl; [|done].
  apply generateUniquePasscode_free in Hp as [Hp _].
  set (rid := Js.hex (vec_to_list bytes)) in *.
  intros [= <- <-]. split; simpl.
  - intros p' room. destruct (decide (p = p')) as [<-|Hne].
    + rewrite lookup_insert_eq. intros [= <-]. simpl. by rewrite lookup_insert_eq.
    + rewrite lookup_insert_ne by done. intros Hroom.
      pose proof (Hf _ _ Hroom) as Hrid.
      rewrite lookup_insert_ne; [done|]. intros ->. congruence.
  - intros r p'. destruct (decide (rid = r)) as [<-|Hne].
    + rewrite lookup_insert_eq. intros [= <-].
      eexists. by rewrite lookup_insert_eq.
    + rewrite lookup_insert_ne by done. intros Hr.
      destruct (Hb _ _ Hr) as (room & Hroom & Hrid).
      exists room. split; [|done].
      rewrite lookup_insert_ne; [done|]. intros ->. congruence.
  - intros r m. unfold Adapter.join. destruct (decide (rid = r)) as [<-|Hne].
    + rewrite !lookup_insert_eq. intros [= <-]. split; [by eexists|].
      destruct (adapter s !! rid) as [m0|] eqn:Hm0.
      * destruct (Hg _ _ Hm0) as [[? ?] _]. congruence.
      * rewrite (membersOf_None _ _ Hm0), union_empty_r_L, size_singleton. lia.
    + rewrite !lookup_insert_ne by done. apply Hg.
Qed.

(** After an accepted join the room holds at most two sockets, if it did
    before. *)
Lemma isFull_false_size a sid rid :
  isFull a sid rid = false →
  size (Adapter.membersOf a rid) ≤ 2 →
  size ({[sid]} ∪ Adapter.membersOf a rid) ≤ 2.
Proof.
  unfold isFull, Adapter.has. destruct (a !! rid) as [m|] eqn:Hm.
  - rewrite (membersOf_Some _ _ _ Hm).
    intros [Hsz|Hin]%andb_false_iff Hle.
    + apply bool_decide_eq_false in Hsz.
      rewrite size_union_alt, size_singleton.
      assert (size (m ∖ {[sid]}) ≤ size m) as Hsub.
      { apply subseteq_size, subseteq_difference_l. done. }
      lia.
    + apply negb_false_iff, bool_decide_eq_true in Hin.
      rewrite (subseteq_union_1_L {[sid]} m); [done|].
      by apply singleton_subseteq_l.
  - intros _ _.
    rewrite (membersOf_None _ _ Hm), union_empty_r_L, size_singleton. lia.
Qed.

Lemma store_inv_joinRoom sid args s :
  store_inv s → store_inv (joinRoom sid args s).1.
Proof.
  intros Hinv. unfold joinRoom.
  destruct (findRoom s args) as [room|] eqn:Hfind; [|done].
  destruct (isFull (adapter s) sid (roomId room)) eqn:Hfull; [done|].
  destruct Hinv as [Hf Hb Hg]. split; simpl; try done.
  intros r m. unfold Adapter.join.
  destruct (decide (roomId room = r)) as [<-|Hne].
  - rewrite lookup_insert_eq. intros [= <-].
    apply findRoom_live in Hfind as [p Hp]. split.
    + rewrite (Hf _ _ Hp). by eexists.
    + apply isFull_false_size; [done|].
      destruct (adapter s !! roomId room) as [m|] eqn:Hm.
      * rewrite (membersOf_Some _ _ _ Hm). by destruct (Hg _ _ Hm).
      * rewrite (membersOf_None _ _ Hm), size_empty. lia.
  - rewrite lookup_insert_ne by done. apply Hg.
Qed.

Lemma store_inv_quitRoom sid sk s :
  store_inv s → store_inv (quitRoom sid sk s).1.
Proof.
  intros Hinv. unfold quitRoom. case_match; [done|].
  destruct Hinv as [Hf Hb Hg]. split; simpl; try done.
  intros r m' (m & Hm & Hsub)%lookup_leave_Some.
  destruct (Hg _ _ Hm) as [Hlive Hsz]. split; [done|].
  apply subseteq_size in Hsub. lia.
Qed.

Lemma store_inv_disconnect sid sk s :
  store_inv s → store_inv (disconnect sid sk s).1.
Proof.
  intros [Hf Hb Hg].
  assert (store_inv
            {| rooms := rooms s; roomIds := roomIds s;
               adapter := Adapter.leaveAll sid (adapter s);
               sockets := delete sid (sockets s); timers := timers s |}).
  { split; simpl; try done.
    intros r m' (m & Hm & Hsub)%lookup_leaveAll_Some.
    destruct (Hg _ _ Hm) as [Hlive Hsz]. split; [done|].
    apply subseteq_size in Hsub. lia. }
  unfold disconnect. by case_match.
Qed.

(** The callback of a pending timeout finds its room, and removes the two
    entries of that room. *)
Lemma store_inv_expire p r l s :
  timers_inv s → (p, r) ∈ timers s →
  store_inv s → store_inv (expire p r (with_timers l s)).1.
Proof.
  intros [Ht _] Hin [Hf Hb Hg].
  destruct (Ht p r Hin) as (room & Hroom & Hrid).
  unfold expire. simpl. rewrite Hroom.
  rewrite decide_True by (by eexists). split; simpl.
  - intros p' room'. destruct (decide (p = p')) as [<-|Hne].
    + by rewrite lookup_delete_eq.
    + rewrite lookup_delete_ne by done. intros Hroom'.
      pose proof (Hf _ _ Hroom') as Hback.
      rewrite lookup_delete_ne; [done|]. intros Heq.
      pose proof (Hf _ _ Hroom) as Hback0. congruence.
  - intros r' p'. destruct (decide (r = r')) as [<-|Hne].
    + by rewrite lookup_delete_eq.
    + rewrite lookup_delete_ne by done. intros Hr'.
      destruct (Hb _ _ Hr') as (room' & Hroom' & Hrid').
      exists room'. split; [|done].
      rewrite lookup_delete_ne; [done|]. intros ->. congruence.
  - intros r' m. unfold Adapter.socketsLeave.
    destruct (decide (r = r')) as [<-|Hne].
    + by rewrite lookup_delete_eq.
    + rewrite !lookup_delete_ne by done. apply Hg.
Qed.

Lemma store_inv_step s ev s' out :
  timers_inv s → store_inv s → fresh_roomId s ev →
  step s ev = Some (s', out) → store_inv s'.
Proof.
  intros Htimers Hinv Hfresh.
  destruct ev as [sid|sid draws bytes now|sid args|sid msg|sid|sid|sid|sid|p r];
    simpl.
  - case_match; [done|]. intros [= <- <-].
    destruct Hinv. by split.
  - socket_of sid.
    by apply store_inv_createRoom.
  - socket_of sid.
    intros [= Heq]. rewrite (surjective_pairing (joinRoom sid args s)) in Heq.
    injection Heq as <- _. by apply store_inv_joinRoom.
  - socket_of sid.
    unfold sendMessage. by case_match; intros [= <- <-].
  - socket_of sid.
    unfold typing. by case_match; intros [= <- <-].
  - socket_of sid.
    unfold stopTyping. by case_match; intros [= <- <-].
  - socket_of sid.
    intros [= Heq]. rewrite (surjective_pairing (quitRoom sid sk s)) in Heq.
    injection Heq as <- _. by apply store_inv_quitRoom.
  - socket_of sid.
    intros [= Heq]. rewrite (surjective_pairing (disconnect sid sk s)) in Heq.
    injection Heq as <- _. by apply store_inv_disconnect.
  - destruct (clearTimer (p, r) (timers s)) as [l|] eqn:Hl; simpl; [|done].
    intros [= Heq].
    rewrite (surjective_pairing (expire p r _)) in Heq.
    injection Heq as <- _. apply store_inv_expire; [done| |done].
    apply clearTimer_Some in Hl as (l1 & l2 & -> & _).
    apply elem_of_app. right. by left.
Qed.

Lemma reachable_fresh_store_inv s : reachable_fresh s → store_inv s.
Proof.
  induction 1 as [|s ev s' out Hs IH Hfresh Hstep]; [apply store_inv_initial|].
  eapply store_inv_step; [|done..].
  by apply reachable_timers_inv, reachable_fresh_reachable.
Qed.

(** ** Runs *)

Lemma run_reachable s evs s' outs :
  reachable s → run s evs = Some (s', outs) → reachable s'.
Proof.
  revert s outs. induction evs as [|ev evs IH]; intros s outs Hs; simpl.
  - by intros [= <- _].
  - destruct (step s ev) as [[s1 out]|] eqn:Hstep; simpl; [|done].
    destruct (run s1 evs) as [[s2 outs']|] eqn:Hrun; simpl; [|done].
    intros [= <- _]. eapply IH; [|done]. by eapply reachable_step.
Qed.

Lemma run_fresh_reachable s evs s' :
  reachable_fresh s → run_fresh s evs = Some s' → reachable_fresh s'.
Proof.
  revert s. induction evs as [|ev evs IH]; intros s Hs; simpl.
  - by intros [= <-].
  - case_decide as Hfresh; [|done].
    destruct (step s ev) as [[s1 out]|] eqn:Hstep; simpl; [|done].
    apply IH. by eapply reachable_fresh_step.
Qed.

Lemma store_inv_index s : store_inv s → index_consistent s.
Proof. intros [Hf Hb _]. by split. Qed.

Lemma isFull_true a sid rid :
  2 ≤ size (Adapter.membersOf a rid) → sid ∉ Adapter.membersOf a rid →
  isFull a sid rid = true.
Proof.
  unfold isFull, Adapter.has. intros Hsz Hnot.
  destruct (a !! rid) as [m|] eqn:Hm.
  - rewrite (membersOf_Some _ _ _ Hm) in *.
    rewrite bool_decide_eq_true_2, bool_decide_eq_false_2 by done. done.
  - rewrite (membersOf_None _ _ Hm), size_empty in Hsz. lia.
Qed.

Lemma isFull_member a sid rid :
  sid ∈ Adapter.membersOf a rid → isFull a sid rid = false.
Proof.
  unfold isFull, Adapter.has. intros Hin. case_match; [|done].
  rewrite (bool_decide_eq_true_2 _ Hin). apply andb_false_r.
Qed.

(** ** The claims *)

(** C1 (amended).  Bidirectional index consistency: in every state reached
    while no [createRoom] drew the [roomId] of a live room,
    [roomIds.get(rooms.get(p).roomId)] is [p] for every live passcode [p],
    and every entry of [roomIds] has its entry in [rooms]; every event that
    again draws no live key (a [createRoom] insertion, the paired deletion
    of an expiry, any other handler) leads to a state where this holds. *)
Theorem index_consistent_fresh s :
  reachable_fresh s →
  index_consistent s ∧
  ∀ ev s' out,
    fresh_roomId s ev → step s ev = Some (s', out) → index_consistent s'.
Proof.
  intros Hs. split.
  - by apply store_inv_index, reachable_fresh_store_inv.
  - intros ev s' out Hfresh Hstep.
    apply store_inv_index, reachable_fresh_store_inv.
    by eapply reachable_fresh_step.
Qed.

Lemma index_consistent_fresh_witness :
  index_consistent (Scenario.after Scenario.two_party).
Proof.
  apply (index_consistent_fresh (Scenario.after Scenario.two_party)).
  apply (run_fresh_reachable initial Scenario.two_party).
  - apply reachable_fresh_initial.
  - vm_compute. reflexivity.
Defined.

(** C1 as stated fails: after two [createRoom] calls that drew the same
    [roomId], the first passcode no longer maps back to itself. *)
Lemma index_inconsistent_same_key :
  ¬ (∀ s, reachable s → index_consistent s).
Proof.
  intros H.
  destruct (H (Scenario.after Scenario.same_key_twice)) as [Hf _].
  - apply (run_reachable initial Scenario.same_key_twice _
             (default [] (snd <$> run initial Scenario.same_key_twice)));
      [apply reachable_initial | vm_compute; reflexivity].
  - specialize (Hf "100000" (mkRoom Scenario.keyA 2401000)).
    vm_compute in Hf. specialize (Hf eq_refl). discriminate Hf.
Qed.

(** C2 (amended).  Capacity: in every state reached while no [createRoom]
    drew the [roomId] of a live room, every room of the adapter holds at
    most two sockets; and in any state, a [joinRoom] of a socket that is
    not a member of the room it names, when that room has two members
    already, emits [systemMessage "Room is full."] to that socket and
    leaves the state (adapter and socket properties included) as it was. *)
Theorem capacity_enforced :
  (∀ s r, reachable_fresh s → size (Adapter.membersOf (adapter s) r) ≤ 2) ∧
  (∀ s sid args room,
     is_Some (sockets s !! sid) →
     findRoom s args = Some room →
     2 ≤ size (Adapter.membersOf (adapter s) (roomId room)) →
     sid ∉ Adapter.membersOf (adapter s) (roomId room) →
     step s (JoinRoom sid args)
     = Some (s, [(sid, systemMessage "Room is full.")])).
Proof.
  split.
  - intros s r Hs. apply reachable_fresh_store_inv in Hs.
    destruct (adapter s !! r) as [m|] eqn:Hm.
    + rewrite (membersOf_Some _ _ _ Hm). by destruct (inv_groups s Hs r m Hm).
    + rewrite (membersOf_None _ _ Hm), size_empty. lia.
  - intros s sid args room [sk Hsk] Hfind Hsz Hnot. simpl.
    rewrite Hsk. simpl. unfold joinRoom.
    by rewrite Hfind, (isFull_true _ _ _ Hsz Hnot).
Qed.

Lemma capacity_enforced_witness :
  size (Adapter.membersOf (adapter (Scenario.after Scenario.two_party))
          Scenario.keyA) ≤ 2 ∧
  step (connection "c" (Scenario.after Scenario.two_party))
    (JoinRoom "c" (Scenario.byPasscode "123456" "Carol"))
  = Some (connection "c" (Scenario.after Scenario.two_party),
          [("c", systemMessage "Room is full.")]).
Proof.
  split.
  - apply (proj1 capacity_enforced).
    apply (run_fresh_reachable initial Scenario.two_party).
    + apply reachable_fresh_initial.
    + vm_compute. reflexivity.
  - apply (proj2 capacity_enforced _ "c" _ (mkRoom Scenario.keyA 2401000)).
    + by eexists.
    + vm_compute. reflexivity.
    + vm_compute. lia.
    + vm_compute. intros H. discriminate H.
Defined.

(** C2 as stated fails: a third socket whose [createRoom] drew the key of
    a room with two members is joined to that room. *)
Lemma capacity_exceeded_same_key :
  ¬ (∀ s, reachable s → capacity_bound s).
Proof.
  intros H.
  assert (reachable (Scenario.after Scenario.crowded)) as Hreach.
  { apply (run_reachable initial Scenario.crowded _
             (default [] (snd <$> run initial Scenario.crowded)));
      [apply reachable_initial | vm_compute; reflexivity]. }
  specialize (H _ Hreach Scenario.keyA).
  assert (is_Some (roomIds (Scenario.after Scenario.crowded) !! Scenario.keyA))
    as Hlive by (exists "100001"; vm_compute; reflexivity).
  specialize (H Hlive). vm_compute in H. lia.
Qed.

(** C3.  Expiry: when a pending timeout of [createRoom] fires and
    [rooms.has(passcode)], both entries are removed, so that no later
    [joinRoom] finds the room by that passcode or by that [roomId]; each
    socket in the room at that moment gets [systemMessage "⚠️ Room expired."]
    once and nobody else gets anything; and the room is left without
    members.  When the passcode is absent nothing is emitted and the store,
    the adapter and the sockets stay as they were. *)
Theorem expiry_semantics s passcode rid :
  (passcode, rid) ∈ timers s →
  ∃ s' out,
    step s (Timeout passcode rid) = Some (s', out) ∧
    (is_Some (rooms s !! passcode) →
       rooms s' !! passcode = None ∧
       roomIds s' !! rid = None ∧
       (∀ q name, Js.trim q = passcode →
                  findRoom s' (mkJoinArgs (Some q) None name) = None) ∧
       (∀ name, findRoom s' (mkJoinArgs None (Some rid) name) = None) ∧
       NoDup out ∧
       (∀ d e, (d, e) ∈ out ↔
               e = systemMessage "⚠️ Room expired." ∧
               d ∈ Adapter.membersOf (adapter s) rid) ∧
       Adapter.membersOf (adapter s') rid = ∅) ∧
    (rooms s !! passcode = None →
       out = [] ∧ rooms s' = rooms s ∧ roomIds s' = roomIds s ∧
       adapter s' = adapter s ∧ sockets s' = sockets s).
Proof.
  intros Hpending. simpl.
  destruct (clearTimer_pending _ _ Hpending) as [l ->]. simpl.
  unfold expire. simpl. case_decide as Hlive.
  - eexists _, _. split; [done|]. split; [|by intros Hnone; rewrite Hnone in Hlive; destruct Hlive].
    intros _. simpl. split_and!.
    + apply lookup_delete_eq.
    + apply lookup_delete_eq.
    + intros q name Hq. unfold findRoom. simpl.
      case_match; [|done]. rewrite Hq. apply lookup_delete_eq.
    + intros name. unfold findRoom. simpl. case_match; [|done].
      by rewrite lookup_delete_eq.
    + apply NoDup_io_to_emit.
    + intros d e. apply elem_of_io_to_emit.
    + apply membersOf_socketsLeave.
  - eexists _, _. split; [done|]. split; [done|]. by intros _.
Qed.

Lemma expiry_semantics_witness :
  ∃ s' out,
    step (Scenario.after Scenario.two_party)
      (Timeout "123456" Scenario.keyA) = Some (s', out) ∧
    rooms s' !! "123456" = None ∧
    ("a", systemMessage "⚠️ Room expired.") ∈ out.
Proof.
  destruct (expiry_semantics (Scenario.after Scenario.two_party)
              "123456" Scenario.keyA)
    as (s' & out & Hstep & Hlive & _).
  - vm_compute. apply list_elem_of_here.
  - exists s', out. split; [exact Hstep|].
    destruct Hlive as (Hgone & _ & _ & _ & _ & Hout & _).
    + exists (mkRoom Scenario.keyA 2401000). vm_compute. reflexivity.
    + split; [exact Hgone|]. apply Hout. split; [reflexivity|].
      vm_compute. set_solver.
Defined.

(** C4.  Passcode uniqueness: when [generateUniquePasscode] returns, its
    result is one of the drawn candidates (100000 plus a draw) and not a
    key of [rooms]; it does return as soon as one drawn candidate is free;
    the passcode a [createRoom] call answers with differs from the
    passcode of every room live at that call, and is live afterwards; and
    in every reachable state the passcodes answered by the [createRoom]
    calls whose rooms have not expired yet (their timeouts are pending) are
    pairwise distinct, each of them a key of [rooms]. *)
Theorem passcode_unique :
  (∀ store draws p,
     generateUniquePasscode store draws = Some p →
     store !! p = None ∧ ∃ k, k ∈ draws ∧ p = Js.toString (100000 + k)) ∧
  (∀ store draws k,
     k ∈ draws → store !! candidate k = None →
     is_Some (generateUniquePasscode store draws)) ∧
  (∀ s sid draws bytes now s' out,
     step s (CreateRoom sid draws bytes now) = Some (s', out) →
     ∃ p, out = [(sid, roomCreated p (Js.hex (vec_to_list bytes))
                         (now + 2400000)%Z)] ∧
          (∀ q, is_Some (rooms s !! q) → q ≠ p) ∧
          rooms s' = <[p := mkRoom (Js.hex (vec_to_list bytes))
                               (now + 2400000)%Z]> (rooms s)) ∧
  (∀ s, reachable s →
        NoDup (timers s).*1 ∧
        ∀ p r, (p, r) ∈ timers s → is_Some (rooms s !! p)).
Proof.
  split_and!.
  - intros store draws p Hp. by apply generateUniquePasscode_free in Hp.
  - intros store draws k. apply generateUniquePasscode_returns.
  - intros s sid draws bytes now s' out. simpl.
    socket_of sid. unfold createRoom.
    destruct (generateUniquePasscode (rooms s) draws) as [p|] eqn:Hp;
      simpl; [|done].
    intros [= <- <-]. exists p. split_and!; [done| |done].
    apply generateUniquePasscode_free in Hp as [Hp _].
    intros q [room Hq] ->. congruence.
  - intros s [Ht Hnd]%reachable_timers_inv. split; [done|].
    intros p r Hin. destruct (Ht p r Hin) as (room & Hroom & _). by eexists.
Qed.

Lemma passcode_unique_witness :
  (rooms (Scenario.after Scenario.two_party) !! "100007" = None ∧
   ∃ k, k ∈ [23456%N; 7%N] ∧ "100007" = Js.toString (100000 + k)) ∧
  is_Some (generateUniquePasscode
             (rooms (Scenario.after Scenario.two_party)) [23456%N; 7%N]).
Proof.
  split.
  - apply (proj1 passcode_unique _ [23456%N; 7%N]). vm_compute. reflexivity.
  - apply (proj1 (proj2 passcode_unique) _ [23456%N; 7%N] 7%N).
    + apply list_elem_of_further, list_elem_of_here.
    + vm_compute. reflexivity.
Defined.

(** ** Leaving a room *)

(** [quitRoom] takes the socket out of the room and does not touch the
    socket object: a [sendMessage] that follows finds [socket.roomId] as it
    was and relays to the members that remain. *)
Lemma quitRoom_then_sendMessage s sid sk rid message :
  sockets s !! sid = Some sk →
  socket_roomId sk = Some rid → rid ≠ "" →
  ∃ s1 out1,
    step s (QuitRoom sid) = Some (s1, out1) ∧
    sockets s1 !! sid = Some sk ∧
    Adapter.membersOf (adapter s1) rid
    = Adapter.membersOf (adapter s) rid ∖ {[sid]} ∧
    step s1 (SendMessage sid message)
    = Some (s1, socket_to_emit (adapter s1) sid rid
                  (newMessage message (socket_userName sk))) ∧
    ∀ d, d ∈ Adapter.membersOf (adapter s) rid → d ≠ sid →
         (d, newMessage message (socket_userName sk))
           ∈ socket_to_emit (adapter s1) sid rid
               (newMessage message (socket_userName sk)).
Proof.
  intros Hsk Hrid Hne.
  assert (Js.truthy (socket_roomId sk) = true) as Htruthy.
  { rewrite Hrid. simpl. by apply bool_decide_eq_true. }
  eexists _, _. simpl. rewrite Hsk. simpl. unfold quitRoom.
  rewrite Htruthy. simpl. split; [done|]. simpl. rewrite Hsk, Hrid. simpl.
  split_and!; [done|apply membersOf_leave| |].
  - unfold sendMessage. by rewrite Htruthy, Hrid.
  - intros d Hd Hds. apply elem_of_socket_to_emit.
    rewrite membersOf_leave. set_solver.
Qed.

(** C5 (the code at the failing input).  A creates a room, B joins it, B
    calls [quitRoom] and then [sendMessage]: the message is relayed to A.
    [quitRoom] leaves the room of the adapter but keeps [socket.roomId]. *)
Theorem quitRoom_keeps_roomId :
  Scenario.last_emitted Scenario.quit_then_send
  = [("a", newMessage "still here" (Some "Bob"))] ∧
  sockets (Scenario.after Scenario.quit_then_send) !! "b"
  = Some (mkSocket (Some Scenario.keyA) (Some "Bob")) ∧
  "b" ∉ Adapter.membersOf (adapter (Scenario.after Scenario.quit_then_send))
          Scenario.keyA.
Proof.
  split_and!.
  - vm_compute. reflexivity.
  - vm_compute. reflexivity.
  - vm_compute. set_solver.
Qed.

(** ** What [joinRoom] does, case by case *)

Lemma joinRoom_accepted sid args s room :
  findRoom s args = Some room →
  isFull (adapter s) sid (roomId room) = false →
  let name := Js.or_else (arg_name args) "Anonymous" in
  let s' := (joinRoom sid args s).1 in
  (joinRoom sid args s).2
  = (sid, joinSuccess (roomId room) (roomIds s !! roomId room) (expireAt room))
    :: io_to_emit (adapter s') (roomId room) (systemMessage (name +:+ " joined."))
  ∧ adapter s' = Adapter.join sid (roomId room) (adapter s)
  ∧ sockets s'
    = alter (set_userName name ∘ set_roomId (roomId room)) sid (sockets s)
  ∧ rooms s' = rooms s ∧ roomIds s' = roomIds s ∧ timers s' = timers s.
Proof. intros Hfind Hfull. unfold joinRoom. by rewrite Hfind, Hfull. Qed.

(** A [joinSuccess] in the output tells that the room was found and the
    socket accepted. *)
Lemma joinRoom_success_inv sid args s rid pc e :
  (sid, joinSuccess rid pc e) ∈ (joinRoom sid args s).2 →
  ∃ room, findRoom s args = Some room ∧ roomId room = rid ∧
          isFull (adapter s) sid rid = false.
Proof.
  unfold joinRoom. destruct (findRoom s args) as [room|]; simpl.
  - destruct (isFull (adapter s) sid (roomId room)) eqn:Hfull; simpl.
    + by intros [=]%list_elem_of_singleton.
    + intros [Heq|Hin]%elem_of_cons.
      { simplify_eq. by exists room. }
      by apply elem_of_io_to_emit in Hin as [[=] _].
  - by intros [=]%list_elem_of_singleton.
Qed.

Lemma step_joinRoom s sid args s' out :
  step s (JoinRoom sid args) = Some (s', out) →
  is_Some (sockets s !! sid) ∧ joinRoom sid args s = (s', out).
Proof.
  simpl. socket_of sid.
  intros [= Heq]. split; [by eexists | done].
Qed.

(** C6 (amended).  On every successful [joinRoom] the notice
    ["<name> joined."] goes to every member of the room, the joining socket
    included: the handler emits [joinSuccess] to the joining socket and
    then the notice once to each socket of the room as it is after the
    join. *)
Theorem joined_notice_to_whole_room s sid args s' out rid pc e :
  step s (JoinRoom sid args) = Some (s', out) →
  (sid, joinSuccess rid pc e) ∈ out →
  let notice :=
    systemMessage (Js.or_else (arg_name args) "Anonymous" +:+ " joined.") in
  out = (sid, joinSuccess rid pc e) :: io_to_emit (adapter s') rid notice ∧
  NoDup (io_to_emit (adapter s') rid notice) ∧
  (∀ d, (d, notice) ∈ out ↔ d ∈ Adapter.membersOf (adapter s') rid) ∧
  sid ∈ Adapter.membersOf (adapter s') rid ∧
  (sid, notice) ∈ out.
Proof.
  intros [_ Hjoin]%step_joinRoom Hin notice.
  assert (Hin' : (sid, joinSuccess rid pc e) ∈ (joinRoom sid args s).2)
    by (by rewrite Hjoin).
  destruct (joinRoom_success_inv _ _ _ _ _ _ Hin') as (room & Hfind & <- & Hfull).
  destruct (joinRoom_accepted sid args s room Hfind Hfull)
    as (Hout & Hadapter & _).
  rewrite Hjoin in Hout, Hadapter. simpl in Hout, Hadapter.
  assert (Hmember : sid ∈ Adapter.membersOf (adapter s') (roomId room)).
  { rewrite Hadapter, membersOf_join. set_solver. }
  assert (Hall : ∀ d, (d, notice) ∈ out
                      ↔ d ∈ Adapter.membersOf (adapter s') (roomId room)).
  { intros d. rewrite Hout, elem_of_cons, elem_of_io_to_emit.
    split; [intros [[=]|[_ ?]]; done | by right]. }
  split_and!; [|apply NoDup_io_to_emit|done|done|by apply Hall].
  rewrite Hout in Hin |- *. f_equal.
  apply elem_of_cons in Hin as [Heq|Hin]; [done|].
  by apply elem_of_io_to_emit in Hin as [[=] _].
Qed.

Lemma joined_notice_to_whole_room_witness :
  ("b", systemMessage "Bob joined.")
    ∈ Scenario.last_emitted Scenario.two_party.
Proof.
  pose (s := Scenario.after [Connection "a"; Connection "b";
                            CreateRoom "a" [23456%N] Scenario.bytesA 1000]).
  refine (proj2 (proj2 (proj2 (proj2
    (joined_notice_to_whole_room s "b" (Scenario.byPasscode "123456" "Bob")
       (Scenario.after Scenario.two_party)
       (Scenario.last_emitted Scenario.two_party)
       Scenario.keyA (Some "123456") 2401000%Z _ _))))).
  - vm_compute. reflexivity.
  - vm_compute. apply list_elem_of_here.
Defined.

(** C6 as stated fails: B, joining the room of A, receives its own
    ["Bob joined."]. *)
Lemma notice_reaches_joiner : ¬ notice_skips_joiner.
Proof.
  intros H.
  pose (s := Scenario.after [Connection "a"; Connection "b";
                            CreateRoom "a" [23456%N] Scenario.bytesA 1000]).
  destruct (H s "b" (Scenario.byPasscode "123456" "Bob")
              (Scenario.after Scenario.two_party)
              (Scenario.last_emitted Scenario.two_party)
              Scenario.keyA (Some "123456") 2401000%Z "b") as [Hto _].
  - vm_compute. reflexivity.
  - vm_compute. apply list_elem_of_here.
  - destruct Hto as [_ Hne]; [|by apply Hne].
    vm_compute. apply list_elem_of_further, list_elem_of_further, list_elem_of_here.
Qed.

(** C7.  Join failure: a [joinRoom] whose passcode (or, without a passcode,
    whose [roomId]) finds no live room emits exactly
    [systemMessage "Invalid or expired passcode."] to the requesting socket
    and nothing else, and the whole state is as before: no room of the
    adapter gains the socket, [socket.roomId] and [socket.userName] are
    untouched, [rooms] and [roomIds] are unchanged. *)
Theorem joinRoom_not_found s sid args :
  is_Some (sockets s !! sid) →
  findRoom s args = None →
  ∃ s' out,
    step s (JoinRoom sid args) = Some (s', out) ∧
    out = [(sid, systemMessage "Invalid or expired passcode.")] ∧
    (∀ room, Adapter.membersOf (adapter s') room
             = Adapter.membersOf (adapter s) room) ∧
    sockets s' !! sid = sockets s !! sid ∧
    rooms s' = rooms s ∧ roomIds s' = roomIds s ∧
    s' = s.
Proof.
  intros [sk Hsk] Hfind. exists s, [(sid, systemMessage "Invalid or expired passcode.")].
  split_and!; try done.
  simpl. rewrite Hsk. simpl. unfold joinRoom. by rewrite Hfind.
Qed.

Lemma joinRoom_not_found_witness :
  ∃ s' out,
    step (connection "c" initial)
      (JoinRoom "c" (mkJoinArgs (Some "000000") None None)) = Some (s', out) ∧
    out = [("c", systemMessage "Invalid or expired passcode.")] ∧
    s' = connection "c" initial.
Proof.
  destruct (joinRoom_not_found (connection "c" initial) "c"
              (mkJoinArgs (Some "000000") None None))
    as (s' & out & Hstep & Hout & _ & _ & _ & _ & Hs).
  - exists (mkSocket None None). vm_compute. reflexivity.
  - vm_compute. reflexivity.
  - by exists s', out.
Defined.

(** C8.  Idempotent re-join: a socket already in the room that its
    [joinRoom] finds is accepted, whatever the size of the room: it gets
    [joinSuccess], it does not get [systemMessage "Room is full."], and the
    members of the room are the same as before. *)
Theorem rejoin_accepted s sid args room :
  is_Some (sockets s !! sid) →
  findRoom s args = Some room →
  sid ∈ Adapter.membersOf (adapter s) (roomId room) →
  ∃ s' out,
    step s (JoinRoom sid args) = Some (s', out) ∧
    (sid, joinSuccess (roomId room) (roomIds s !! roomId room) (expireAt room))
      ∈ out ∧
    (∀ d, (d, systemMessage "Room is full.") ∉ out) ∧
    Adapter.membersOf (adapter s') (roomId room)
    = Adapter.membersOf (adapter s) (roomId room).
Proof.
  intros [sk Hsk] Hfind Hin.
  pose proof (isFull_member _ _ _ Hin) as Hfull.
  destruct (joinRoom_accepted sid args s room Hfind Hfull)
    as (Hout & Hadapter & _).
  exists (joinRoom sid args s).1, (joinRoom sid args s).2. split_and!.
  - simpl. rewrite Hsk. simpl. by rewrite <- surjective_pairing.
  - rewrite Hout. apply list_elem_of_here.
  - intros d. rewrite Hout. intros [[=]|Hd]%elem_of_cons.
    apply elem_of_io_to_emit in Hd as [[= Heq] _].
    symmetry in Heq. by apply joined_is_not_full in Heq.
  - rewrite Hadapter, membersOf_join. set_solver.
Qed.

Lemma rejoin_accepted_witness :
  ∃ s' out,
    step (Scenario.after Scenario.two_party)
      (JoinRoom "b" (Scenario.byPasscode "123456" "Bob")) = Some (s', out) ∧
    ("b", joinSuccess Scenario.keyA (Some "123456") 2401000%Z) ∈ out ∧
    size (Adapter.membersOf (adapter (Scenario.after Scenario.two_party))
            Scenario.keyA) = 2.
Proof.
  destruct (rejoin_accepted (Scenario.after Scenario.two_party) "b"
              (Scenario.byPasscode "123456" "Bob")
              (mkRoom Scenario.keyA 2401000))
    as (s' & out & Hstep & Hout & _ & _).
  - exists (mkSocket (Some Scenario.keyA) (Some "Bob")). vm_compute. reflexivity.
  - vm_compute. reflexivity.
  - vm_compute. set_solver.
  - exists s', out. split_and!; [exact Hstep | exact Hout | vm_compute; reflexivity].
Defined.

(** C9 (amended).  A socket [c] in the room [A] that calls [createRoom],
    or a successful [joinRoom], for another room [B] is not taken out of
    [A]: the members of [A] are the same as before, [c] is now in [A] and
    in [B] and still gets what is emitted to [A].  Of the socket object,
    [createRoom] overwrites [socket.roomId] (to [B]) and nothing else;
    [joinRoom] overwrites [socket.roomId] (to [B]) and also
    [socket.userName], with the name of the call or "Anonymous". *)
Theorem other_room_keeps_membership s c A :
  c ∈ Adapter.membersOf (adapter s) A →
  (∀ draws bytes now s' out,
     let B := Js.hex (vec_to_list bytes) in
     step s (CreateRoom c draws bytes now) = Some (s', out) →
     B ≠ A →
     Adapter.membersOf (adapter s') A = Adapter.membersOf (adapter s) A ∧
     c ∈ Adapter.membersOf (adapter s') A ∧
     c ∈ Adapter.membersOf (adapter s') B ∧
     (∀ e, (c, e) ∈ io_to_emit (adapter s') A e) ∧
     sockets s' !! c = set_roomId B <$> sockets s !! c) ∧
  (∀ args B pc e s' out,
     step s (JoinRoom c args) = Some (s', out) →
     (c, joinSuccess B pc e) ∈ out →
     B ≠ A →
     Adapter.membersOf (adapter s') A = Adapter.membersOf (adapter s) A ∧
     c ∈ Adapter.membersOf (adapter s') A ∧
     c ∈ Adapter.membersOf (adapter s') B ∧
     (∀ e, (c, e) ∈ io_to_emit (adapter s') A e) ∧
     sockets s' !! c
     = (set_userName (Js.or_else (arg_name args) "Anonymous") ∘ set_roomId B)
         <$> sockets s !! c).
Proof.
  intros HinA. split.
  - intros draws bytes now s' out B. simpl.
    destruct (sockets s !! c) as [sk|] eqn:Hsk; simpl; [|done].
    unfold createRoom.
    destruct (generateUniquePasscode (rooms s) draws) as [p|]; simpl; [|done].
    intros [= <- <-] Hne. simpl. fold B.
    assert (HA : Adapter.membersOf (Adapter.join c B (adapter s)) A
                 = Adapter.membersOf (adapter s) A)
      by (by apply membersOf_join_ne).
    split_and!.
    + done.
    + by rewrite HA.
    + rewrite membersOf_join. set_solver.
    + intros e. apply elem_of_io_to_emit. by rewrite HA.
    + by rewrite lookup_alter_eq, Hsk.
  - intros args B pc e s' out [_ Hjoin]%step_joinRoom Hin Hne.
    assert (Hin' : (c, joinSuccess B pc e) ∈ (joinRoom c args s).2)
      by (by rewrite Hjoin).
    destruct (joinRoom_success_inv _ _ _ _ _ _ Hin')
      as (room & Hfind & <- & Hfull).
    destruct (joinRoom_accepted c args s room Hfind Hfull)
      as (_ & Hadapter & Hsockets & _).
    rewrite Hjoin in Hadapter, Hsockets. simpl in Hadapter, Hsockets.
    assert (HA : Adapter.membersOf (adapter s') A
                 = Adapter.membersOf (adapter s) A)
      by (rewrite Hadapter; by apply membersOf_join_ne).
    split_and!.
    + done.
    + by rewrite HA.
    + rewrite Hadapter, membersOf_join. set_solver.
    + intros e'. apply elem_of_io_to_emit. by rewrite HA.
    + by rewrite Hsockets, lookup_alter_eq.
Qed.

Lemma other_room_keeps_membership_witness :
  "a" ∈ Adapter.membersOf
          (adapter (Scenario.after
             (Scenario.two_party
              ++ [CreateRoom "a" [5%N] Scenario.bytesB 7000])))
          Scenario.keyA ∧
  "a" ∈ Adapter.membersOf
          (adapter (Scenario.after
                      (TwoRooms.before ++ [TwoRooms.second_join])))
          Scenario.keyA ∧
  sockets (Scenario.after (TwoRooms.before ++ [TwoRooms.second_join])) !! "a"
  = Some (mkSocket (Some TwoRooms.keyB) (Some "Zed")).
Proof.
  split.
  - refine (proj1 (proj2 (proj1
      (other_room_keeps_membership (Scenario.after Scenario.two_party)
         "a" Scenario.keyA _)
      [5%N] Scenario.bytesB 7000%Z
      (Scenario.after
         (Scenario.two_party ++ [CreateRoom "a" [5%N] Scenario.bytesB 7000]))
      (Scenario.last_emitted
         (Scenario.two_party ++ [CreateRoom "a" [5%N] Scenario.bytesB 7000]))
      _ _))).
    + vm_compute. set_solver.
    + vm_compute. reflexivity.
    + vm_compute. intros H. discriminate H.
  - destruct (proj2
      (other_room_keeps_membership (Scenario.after TwoRooms.before)
         "a" Scenario.keyA
         ltac:(vm_compute; set_solver))
      (Scenario.byPasscode "100005" "Zed") TwoRooms.keyB (Some "100005")
      2402000%Z
      (Scenario.after (TwoRooms.before ++ [TwoRooms.second_join]))
      (Scenario.last_emitted (TwoRooms.before ++ [TwoRooms.second_join])))
      as (_ & Hstays & _ & _ & Hsocket).
    + vm_compute. reflexivity.
    + vm_compute. apply list_elem_of_here.
    + vm_compute. intros H. discriminate H.
    + split; [exact Hstays|]. rewrite Hsocket. vm_compute. reflexivity.
Defined.

(** C9 as stated fails for [joinRoom]: A, in the first room as "Al", joins
    the second room as "Zed"; it stays in the first room, and its
    [socket.userName] is now "Zed". *)
Lemma joinRoom_overwrites_userName : ¬ join_overwrites_roomId_only.
Proof.
  intros H.
  specialize (H (Scenario.after TwoRooms.before) "a" Scenario.keyA
                (Scenario.byPasscode "100005" "Zed") TwoRooms.keyB
                (Some "100005") 2402000%Z
                (Scenario.after (TwoRooms.before ++ [TwoRooms.second_join]))
                (Scenario.last_emitted
                   (TwoRooms.before ++ [TwoRooms.second_join]))).
  assert (sockets (Scenario.after (TwoRooms.before ++ [TwoRooms.second_join]))
            !! "a"
          = set_roomId TwoRooms.keyB
              <$> sockets (Scenario.after TwoRooms.before) !! "a") as Heq.
  { apply H.
    - vm_compute. set_solver.
    - vm_compute. reflexivity.
    - vm_compute. apply list_elem_of_here.
    - intros Hkey. discriminate Hkey. }
  vm_compute in Heq. discriminate Heq.
Qed.

(** ** A socket that only created rooms *)

(** [socket.userName] was never assigned and [socket.roomId] holds a
    generated key. *)
Lemma step_created_only c s ev s' out sk :
  no_join_by c ev →
  sockets s !! c = Some sk →
  socket_userName sk = None →
  Js.truthy (socket_roomId sk) = true →
  step s ev = Some (s', out) →
  ∃ sk', sockets s' !! c = Some sk' ∧ socket_userName sk' = None ∧
         Js.truthy (socket_roomId sk') = true.
Proof.
  intros Hev Hsk Hname Hrid.
  destruct ev as [sid|sid draws bytes now|sid args|sid msg|sid|sid|sid|sid|p r];
    simpl in *.
  - destruct (sockets s !! sid) eqn:Hsid; [done|]. intros [= <- _]. simpl.
    exists sk. rewrite lookup_insert_ne by congruence. done.
  - socket_of sid. unfold createRoom.
    destruct (generateUniquePasscode (rooms s) draws); simpl; [|done].
    intros [= <- _]. simpl. destruct (decide (sid = c)) as [->|Hne].
    + rewrite lookup_alter_eq, Hsk. simpl. eexists. split; [done|]. simpl.
      split; [done|apply hex_truthy].
    + rewrite lookup_alter_ne by done. by exists sk.
  - socket_of sid. unfold joinRoom.
    intros [= Heq]. repeat case_match; simplify_eq; simpl; try by exists sk.
    rewrite lookup_alter_ne by done. by exists sk.
  - socket_of sid. unfold sendMessage.
    case_match; intros [= <- _]; by exists sk.
  - socket_of sid. unfold typing.
    case_match; intros [= <- _]; by exists sk.
  - socket_of sid. unfold stopTyping.
    case_match; intros [= <- _]; by exists sk.
  - socket_of sid. unfold quitRoom.
    case_match; intros [= <- _]; by exists sk.
  - socket_of sid. unfold disconnect.
    case_match; intros [= <- _]; simpl; exists sk;
      by rewrite lookup_delete_ne.
  - destruct (clearTimer (p, r) (timers s)); simpl; [|done]. unfold expire.
    case_match; intros [= <- _]; by exists sk.
Qed.

Lemma run_created_only c s evs s' outs sk :
  Forall (no_join_by c) evs →
  sockets s !! c = Some sk →
  socket_userName sk = None →
  Js.truthy (socket_roomId sk) = true →
  run s evs = Some (s', outs) →
  ∃ sk', sockets s' !! c = Some sk' ∧ socket_userName sk' = None ∧
         Js.truthy (socket_roomId sk') = true.
Proof.
  intros Hevs. revert s sk outs.
  induction Hevs as [|ev evs Hev _ IH]; intros s sk outs Hsk Hname Hrid; simpl.
  - intros [= <- _]. by exists sk.
  - destruct (step s ev) as [[s1 out]|] eqn:Hstep; simpl; [|done].
    destruct (run s1 evs) as [[s2 outs']|] eqn:Hrun; simpl; [|done].
    intros [= <- _].
    destruct (step_created_only _ _ _ _ _ _ Hev Hsk Hname Hrid Hstep)
      as (sk1 & Hsk1 & Hname1 & Hrid1).
    by eapply IH.
Qed.

(** C10.  A socket [c] that connected, called [createRoom], and since then
    neither called [joinRoom] nor disconnected (whatever else it and the
    other sockets did meanwhile): its [sendMessage] relays [newMessage]
    with [from] undefined to each other member of the room named by its
    [socket.roomId], and leaves the state as it is. *)
Theorem creator_from_undefined c s0 draws bytes now s1 out1 evs s2 outs message :
  sockets s0 !! c = Some (mkSocket None None) →
  step s0 (CreateRoom c draws bytes now) = Some (s1, out1) →
  Forall (no_join_by c) evs →
  run s1 evs = Some (s2, outs) →
  ∃ rid,
    sockets s2 !! c = Some (mkSocket (Some rid) None) ∧
    step s2 (SendMessage c message)
    = Some (s2, (λ d, (d, newMessage message None))
                  <$> elements (Adapter.membersOf (adapter s2) rid ∖ {[c]})).
Proof.
  intros Hc Hcreate Hevs Hrun.
  assert (∃ sk1, sockets s1 !! c = Some sk1 ∧ socket_userName sk1 = None ∧
                 Js.truthy (socket_roomId sk1) = true)
    as (sk1 & Hsk1 & Hname1 & Hrid1).
  { revert Hcreate. simpl. rewrite Hc. simpl. unfold createRoom.
    destruct (generateUniquePasscode (rooms s0) draws); simpl; [|done].
    intros [= <- _]. simpl. rewrite lookup_alter_eq, Hc. simpl.
    eexists. split; [done|]. split; [done|apply hex_truthy]. }
  destruct (run_created_only _ _ _ _ _ _ Hevs Hsk1 Hname1 Hrid1 Hrun)
    as ([rid2 name2] & Hsk2 & Hname2 & Hrid2).
  simpl in Hname2, Hrid2. subst name2.
  destruct rid2 as [rid|]; [|done].
  exists rid. split; [done|]. simpl. rewrite Hsk2. simpl.
  unfold sendMessage. simpl in *. by rewrite Hrid2.
Qed.

Lemma creator_from_undefined_witness :
  ∃ rid,
    sockets (Scenario.after Scenario.two_party) !! "a"
    = Some (mkSocket (Some rid) None) ∧
    step (Scenario.after Scenario.two_party) (SendMessage "a" "hi")
    = Some (Scenario.after Scenario.two_party,
            (λ d, (d, newMessage "hi" None))
              <$> elements
                    (Adapter.membersOf
                       (adapter (Scenario.after Scenario.two_party)) rid
                     ∖ {["a"]})).
Proof.
  apply (creator_from_undefined "a"
           (Scenario.after [Connection "a"; Connection "b"])
           [23456%N] Scenario.bytesA 1000%Z
           (Scenario.after [Connection "a"; Connection "b";
                            CreateRoom "a" [23456%N] Scenario.bytesA 1000])
           [("a", roomCreated "123456" Scenario.keyA 2401000%Z)]
           [JoinRoom "b" (Scenario.byPasscode "123456" "Bob")]
           (Scenario.after Scenario.two_party)
           [Scenario.last_emitted Scenario.two_party]).
  - vm_compute. reflexivity.
  - vm_compute. reflexivity.
  - apply Forall_cons. split; [|apply Forall_nil; exact I].
    simpl. intros H. discriminate H.
  - vm_compute. reflexivity.
Defined.

(** * Further properties of the handlers *)

(** ** Strings, continued *)

Section more_strings.

Lemma string_app_empty_r (s : string) : s +:+ "" = s.
Proof.
  induction s as [|a s IH]; [done|].
  change (String a (s +:+ "") = String a s). by f_equal.
Qed.

Lemma rev_app_rev_app (s1 s2 s3 : string) :
  String.rev_app (String.rev_app s1 s2) s3 = String.rev_app s2 (s1 +:+ s3).
Proof.
  revert s2 s3. induction s1 as [|a s1 IH]; intros s2 s3; [done|].
  change (String.rev_app (String.rev_app s1 (String a s2)) s3
          = String.rev_app s2 (String a (s1 +:+ s3))).
  by rewrite IH.
Qed.

Lemma rev_involutive (s : string) : String.rev (String.rev s) = s.
Proof.
  unfold String.rev. rewrite rev_app_rev_app. simpl. apply string_app_empty_r.
Qed.

Lemma string_forallb_rev_app P s1 s2 :
  string_forallb P s1 = true → string_forallb P s2 = true →
  string_forallb P (String.rev_app s1 s2) = true.
Proof.
  revert s2. induction s1 as [|a s1 IH]; intros s2; simpl; [done|].
  intros [Ha Hs1]%andb_true_iff Hs2. apply IH; [done|]. simpl.
  by rewrite Ha, Hs2.
Qed.

Lemma trimStart_id s :
  string_forallb (λ a, negb (Js.is_white_space a)) s = true →
  Js.trimStart s = s.
Proof.
  destruct s as [|a s]; simpl; [done|].
  intros [Ha _]%andb_true_iff. by apply negb_true_iff in Ha as ->.
Qed.

(** [trim] returns a string without white space as it is. *)
Lemma trim_id s :
  string_forallb (λ a, negb (Js.is_white_space a)) s = true → Js.trim s = s.
Proof.
  intros Hs. unfold Js.trim, Js.trimEnd. rewrite (trimStart_id s Hs).
  rewrite trimStart_id; [apply rev_involutive|].
  by apply string_forallb_rev_app.
Qed.

Lemma string_forallb_impl (P Q : ascii → bool) s :
  (∀ a, P a = true → Q a = true) →
  string_forallb P s = true → string_forallb Q s = true.
Proof.
  intros HPQ. induction s as [|a s IH]; simpl; [done|].
  intros [Ha Hs]%andb_true_iff. by rewrite (HPQ a Ha), IH.
Qed.

Lemma digit_not_white_space a :
  is_digit a = true → negb (Js.is_white_space a) = true.
Proof.
  unfold is_digit, Js.is_white_space.
  intros [H1 H2]%andb_true_iff. apply N.leb_le in H1, H2.
  apply negb_true_iff, orb_false_iff. split.
  - apply andb_false_iff. right. apply N.leb_gt. lia.
  - apply N.eqb_neq. lia.
Qed.

Lemma pretty_N_char_digit x : is_digit (pretty_N_char x) = true.
Proof. unfold pretty_N_char. by repeat case_match. Qed.

(** The decimal digits of a number, prepended to a string of digits. *)
Lemma pretty_N_go_digits x s :
  string_forallb is_digit s = true →
  string_forallb is_digit (pretty_N_go x s) = true.
Proof.
  revert s. induction (N.lt_wf_0 x) as [x _ IH]; intros s Hs.
  destruct (decide (x = 0%N)) as [->|Hx]; [by rewrite pretty_N_go_0|].
  rewrite pretty_N_go_step by lia. apply IH.
  - apply N.div_lt; lia.
  - simpl. by rewrite pretty_N_char_digit, Hs.
Qed.

Lemma pretty_N_go_length x s :
  String.length s ≤ String.length (pretty_N_go x s).
Proof.
  revert s. induction (N.lt_wf_0 x) as [x _ IH]; intros s.
  destruct (decide (x = 0%N)) as [->|Hx]; [by rewrite pretty_N_go_0|].
  rewrite pretty_N_go_step by lia.
  etrans; [|apply IH; apply N.div_lt; lia]. simpl. lia.
Qed.

Lemma toString_digits n : string_forallb is_digit (Js.toString n) = true.
Proof.
  unfold Js.toString, pretty, pretty_N. case_decide; [done|].
  by apply pretty_N_go_digits.
Qed.

Lemma toString_nonempty n : Js.toString n ≠ "".
Proof.
  unfold Js.toString, pretty, pretty_N. case_decide; [done|].
  rewrite pretty_N_go_step by lia. intros Hempty.
  pose proof (pretty_N_go_length (n `div` 10)%N
                (String (pretty_N_char (n `mod` 10)%N) "")) as Hlen.
  rewrite Hempty in Hlen. simpl in Hlen. lia.
Qed.

Lemma div10_bounds (a b n : N) :
  (10 * a ≤ n < 10 * b)%N → (a ≤ n `div` 10 < b)%N.
Proof.
  intros [Hlo Hhi]. split.
  - by apply N.div_le_lower_bound.
  - by apply N.Div0.div_lt_upper_bound.
Qed.

(** A number of six digits is printed as its six digits. *)
Lemma toString_six_digits n :
  (100000 ≤ n < 1000000)%N → is_passcode (Js.toString n) = true.
Proof.
  intros H0. unfold Js.toString, pretty, pretty_N.
  rewrite decide_False by lia.
  pose proof (div10_bounds 10000 100000 _ H0) as H1.
  pose proof (div10_bounds 1000 10000 _ H1) as H2.
  pose proof (div10_bounds 100 1000 _ H2) as H3.
  pose proof (div10_bounds 10 100 _ H3) as H4.
  pose proof (div10_bounds 1 10 _ H4) as H5.
  do 6 (rewrite pretty_N_go_step by lia).
  rewrite (N.div_small _ 10) by lia. rewrite pretty_N_go_0.
  rewrite (N.mod_small _ 10) by lia.
  unfold is_passcode. simpl. rewrite !pretty_N_char_digit. simpl.
  apply negb_true_iff, bool_decide_eq_false. intros [= Hzero].
  apply (pretty_N_char_inj _ 0%N) in Hzero; lia.
Qed.

End more_strings.

Section formats.

Lemma hex_length bytes : String.length (Js.hex bytes) = 2 * length bytes.
Proof. induction bytes as [|b bytes IH]; simpl; [done|]. rewrite IH. lia. Qed.

Lemma hex_digits_of_byte b :
  is_hex_digit (Js.hex_digit (Byte.to_N b / 16)) = true ∧
  is_hex_digit (Js.hex_digit (Byte.to_N b mod 16)) = true.
Proof. by destruct b. Qed.

Lemma hex_hex_digits bytes : string_forallb is_hex_digit (Js.hex bytes) = true.
Proof.
  induction bytes as [|b bytes IH]; [done|].
  destruct (hex_digits_of_byte b) as [Hhi Hlo].
  change (is_hex_digit (Js.hex_digit (Byte.to_N b / 16))
          && (is_hex_digit (Js.hex_digit (Byte.to_N b mod 16))
              && string_forallb is_hex_digit (Js.hex bytes)) = true).
  by rewrite Hhi, Hlo, IH.
Qed.

Lemma hex_is_roomId (bytes : vec byte 16) :
  is_roomId (Js.hex (vec_to_list bytes)) = true.
Proof.
  unfold is_roomId. rewrite hex_length, length_vec_to_list, hex_hex_digits.
  by rewrite bool_decide_eq_true_2.
Qed.

Lemma candidate_digits k : string_forallb is_digit (candidate k) = true.
Proof. apply toString_digits. Qed.

Lemma candidate_nonempty k : candidate k ≠ "".
Proof. apply toString_nonempty. Qed.

Lemma candidate_trim k : Js.trim (candidate k) = candidate k.
Proof.
  apply trim_id. eapply string_forallb_impl; [|apply candidate_digits].
  apply digit_not_white_space.
Qed.

Lemma candidate_truthy k : Js.truthy (Some (candidate k)) = true.
Proof. simpl. apply bool_decide_eq_true, candidate_nonempty. Qed.

End formats.

(** X1.  The passcode that [generateUniquePasscode] returns is a non-empty
    string of decimal digits, which [trim] leaves as it is; when every draw
    is below 900000, as the integer part of [Math.random() * 900000] is, it
    has exactly six digits and does not start with 0. *)
Theorem passcode_format store draws p :
  generateUniquePasscode store draws = Some p →
  p ≠ "" ∧
  string_forallb is_digit p = true ∧
  Js.trim p = p ∧
  (Forall (λ k, (k < 900000)%N) draws → is_passcode p = true).
Proof.
  intros (_ & k & Hk & ->)%generateUniquePasscode_free. split_and!.
  - apply candidate_nonempty.
  - apply candidate_digits.
  - apply candidate_trim.
  - intros Hdraws. rewrite Forall_forall in Hdraws.
    specialize (Hdraws k Hk). apply toString_six_digits. lia.
Qed.

Lemma passcode_format_witness :
  Js.trim "999999" = "999999" ∧ is_passcode "999999" = true.
Proof.
  destruct (passcode_format ∅ [899999%N] "999999") as (_ & _ & Htrim & Hsix).
  - vm_compute. reflexivity.
  - split; [exact Htrim|]. apply Hsix.
    apply Forall_cons. split; [lia|apply Forall_nil; exact I].
Defined.

(** X2.  The passcode loop returns the candidate of the first draw whose
    candidate is not a key of [rooms], whatever was drawn after it; while
    every draw so far is taken, it has not returned. *)
Theorem generateUniquePasscode_first_free store taken :
  Forall (λ j, is_Some (store !! candidate j)) taken →
  generateUniquePasscode store taken = None ∧
  ∀ k rest,
    store !! candidate k = None →
    generateUniquePasscode store (taken ++ k :: rest) = Some (candidate k).
Proof.
  induction 1 as [|j taken Hj _ [IHnone IHsome]]; simpl.
  - split; [done|]. intros k rest Hk. rewrite decide_False; [done|].
    rewrite Hk. by intros [? ?].
  - rewrite !decide_True by done. split; [done|]. intros k rest Hk.
    rewrite decide_True by done. by apply IHsome.
Qed.

Lemma generateUniquePasscode_first_free_witness :
  generateUniquePasscode (rooms (Scenario.after Scenario.two_party))
    ([23456%N; 23456%N] ++ 7%N :: [8%N])
  = Some "100007".
Proof.
  apply (proj2 (generateUniquePasscode_first_free
                  (rooms (Scenario.after Scenario.two_party))
                  [23456%N; 23456%N]
                  ltac:(repeat constructor;
                        exists (mkRoom Scenario.keyA 2401000);
                        vm_compute; reflexivity))
           7%N [8%N]).
  vm_compute. reflexivity.
Defined.

(** ** The two events that change the store, opened up *)

Lemma step_createRoom s sid draws bytes now s' out :
  step s (CreateRoom sid draws bytes now) = Some (s', out) →
  let rid := Js.hex (vec_to_list bytes) in
  let e := (now + 2400000)%Z in
  ∃ p, is_Some (sockets s !! sid) ∧
       generateUniquePasscode (rooms s) draws = Some p ∧
       out = [(sid, roomCreated p rid e)] ∧
       rooms s' = <[p := mkRoom rid e]> (rooms s) ∧
       roomIds s' = <[rid := p]> (roomIds s) ∧
       adapter s' = Adapter.join sid rid (adapter s) ∧
       sockets s' = alter (set_roomId rid) sid (sockets s) ∧
       timers s' = timers s ++ [(p, rid)].
Proof.
  simpl. destruct (sockets s !! sid) as [sk|] eqn:Hsk; simpl; [|done].
  unfold createRoom.
  destruct (generateUniquePasscode (rooms s) draws) as [p|]; simpl; [|done].
  intros [= <- <-]. exists p. by split_and!.
Qed.

Lemma step_timeout s p r s' out :
  step s (Timeout p r) = Some (s', out) →
  ∃ l1 l2,
    timers s = l1 ++ (p, r) :: l2 ∧ timers s' = l1 ++ l2 ∧
    sockets s' = sockets s ∧
    ((is_Some (rooms s !! p) ∧
      rooms s' = delete p (rooms s) ∧ roomIds s' = delete r (roomIds s) ∧
      adapter s' = delete r (adapter s) ∧
      out = io_to_emit (adapter s) r (systemMessage "⚠️ Room expired.")) ∨
     (rooms s !! p = None ∧
      rooms s' = rooms s ∧ roomIds s' = roomIds s ∧
      adapter s' = adapter s ∧ out = [])).
Proof.
  simpl. destruct (clearTimer (p, r) (timers s)) as [l|] eqn:Hl; simpl; [|done].
  apply clearTimer_Some in Hl as (l1 & l2 & Htm & ->).
  unfold expire. simpl. case_decide as Hlive; intros [= <- <-];
    exists l1, l2; simpl; split_and!; try done.
  - left. by split_and!.
  - right. split_and!; try done. by apply eq_None_not_Some.
Qed.

(** ** Rooms and their timeouts *)

Lemma rooms_scheduled_step s ev s' out :
  rooms_scheduled s → step s ev = Some (s', out) → rooms_scheduled s'.
Proof.
  intros Hinv Hstep. pose proof (step_store_unchanged _ _ _ _ Hstep) as Hsame.
  destruct ev as [sid|sid draws bytes now|sid args|sid msg|sid|sid|sid|sid|p r];
    try (destruct Hsame as (Hrooms & _ & Htimers);
         unfold rooms_scheduled; rewrite Hrooms, Htimers; done).
  - apply step_createRoom in Hstep
      as (p & _ & _ & _ & Hrooms & _ & _ & _ & Htimers).
    intros p' room. rewrite Hrooms, Htimers, elem_of_app.
    destruct (decide (p = p')) as [<-|Hne].
    + rewrite lookup_insert_eq. intros [= <-]. right. by left.
    + rewrite lookup_insert_ne by done. intros Hroom. left. by apply Hinv.
  - apply step_timeout in Hstep as (l1 & l2 & Htm & Htm' & _ & Hcase).
    intros p' room Hroom. rewrite Htm'.
    assert (rooms s !! p' = Some room ∧ p' ≠ p) as [Hroom0 Hne].
    { destruct Hcase as [(_ & Hrooms & _)|(Hnone & Hrooms & _)];
        rewrite Hrooms in Hroom.
      - destruct (decide (p = p')) as [<-|Hne];
          [by rewrite lookup_delete_eq in Hroom|].
        by rewrite lookup_delete_ne in Hroom.
      - split; [done|]. intros ->. congruence. }
    pose proof (Hinv _ _ Hroom0) as Hin. rewrite Htm in Hin.
    apply elem_of_app in Hin as [Hin|Hin]; apply elem_of_app; [by left|].
    apply elem_of_cons in Hin as [[= ? _]|Hin]; [done|by right].
Qed.

Lemma reachable_rooms_scheduled s : reachable s → rooms_scheduled s.
Proof.
  induction 1 as [|s ev s' out _ IH Hstep]; [done|].
  by eapply rooms_scheduled_step.
Qed.

(** X3.  Rooms and timeouts go together: in every reachable state the
    pending timeouts are exactly the rooms of [rooms], each with the
    [roomId] stored for its passcode, so that no room is without its expiry
    and a timeout that fires always finds its room and removes the two
    entries. *)
Theorem timeouts_are_live_rooms s :
  reachable s →
  (∀ p r, (p, r) ∈ timers s
          ↔ ∃ room, rooms s !! p = Some room ∧ roomId room = r) ∧
  (∀ p r, (p, r) ∈ timers s →
          ∃ s' out, step s (Timeout p r) = Some (s', out) ∧
                    rooms s' = delete p (rooms s) ∧
                    roomIds s' = delete r (roomIds s) ∧
                    size (rooms s') + 1 = size (rooms s)).
Proof.
  intros Hs. pose proof (reachable_timers_inv _ Hs) as [Ht _].
  pose proof (reachable_rooms_scheduled _ Hs) as Hsched. split.
  - intros p r. split; [apply Ht|]. intros (room & Hroom & <-). by apply Hsched.
  - intros p r Hin. destruct (clearTimer_pending _ _ Hin) as [l Hl].
    destruct (Ht p r Hin) as (room & Hroom & _).
    destruct (step s (Timeout p r)) as [[s' out]|] eqn:Hstep;
      [|by simpl in Hstep; rewrite Hl in Hstep].
    exists s', out. split; [done|].
    apply step_timeout in Hstep as (_ & _ & _ & _ & _ & Hcase).
    destruct Hcase as [(_ & -> & -> & _)|(Hnone & _)]; [|congruence].
    split_and!; [done..|].
    rewrite map_size_delete, Hroom.
    assert (size (rooms s) ≠ 0); [|lia].
    intros Hzero%map_size_empty_inv. by rewrite Hzero in Hroom.
Qed.

Lemma timeouts_are_live_rooms_witness :
  ("123456", Scenario.keyA) ∈ timers (Scenario.after Scenario.two_party).
Proof.
  apply (proj1 (timeouts_are_live_rooms (Scenario.after Scenario.two_party)
                  (run_reachable initial Scenario.two_party _
                     [[]; []; [("a", roomCreated "123456" Scenario.keyA 2401000%Z)];
                      Scenario.last_emitted Scenario.two_party]
                     reachable_initial eq_refl))).
  exists (mkRoom Scenario.keyA 2401000). split; reflexivity.
Defined.

(** ** What the keys look like *)

Lemma keys_generated_step s ev s' out :
  keys_generated s → step s ev = Some (s', out) → keys_generated s'.
Proof.
  intros Hinv Hstep. pose proof (step_store_unchanged _ _ _ _ Hstep) as Hsame.
  destruct ev as [sid|sid draws bytes now|sid args|sid msg|sid|sid|sid|sid|p r];
    try (destruct Hsame as (Hrooms & _ & _);
         unfold keys_generated; rewrite Hrooms; done).
  - apply step_createRoom in Hstep as (p & _ & Hp & _ & Hrooms & _).
    apply generateUniquePasscode_free in Hp as (_ & k & _ & ->).
    intros p' room. rewrite Hrooms.
    destruct (decide (candidate k = p')) as [<-|Hne].
    + rewrite lookup_insert_eq. intros [= <-]. split; [by exists k|].
      apply hex_is_roomId.
    + rewrite lookup_insert_ne by done. apply Hinv.
  - apply step_timeout in Hstep as (_ & _ & _ & _ & _ & Hcase).
    intros p' room.
    destruct Hcase as [(_ & -> & _)|(_ & -> & _)]; [|apply Hinv].
    intros [_ Hroom]%lookup_delete_Some. by apply Hinv.
Qed.

Lemma reachable_keys_generated s : reachable s → keys_generated s.
Proof.
  induction 1 as [|s ev s' out _ IH Hstep]; [done|].
  by eapply keys_generated_step.
Qed.

Lemma is_roomId_nonempty rid : is_roomId rid = true → rid ≠ "".
Proof. by intros Hrid ->. Qed.

Lemma reachable_no_empty_key s : reachable s → rooms s !! "" = None.
Proof.
  intros Hkeys%reachable_keys_generated.
  destruct (rooms s !! "") as [room|] eqn:Hroom; [|done].
  destruct (Hkeys _ _ Hroom) as [[k Hk] _].
  symmetry in Hk. by apply candidate_nonempty in Hk.
Qed.

(** X4.  In every reachable state each key of [rooms] is a non-empty string
    of decimal digits that [trim] leaves alone, each [roomId] stored is
    thirty-two lowercase hexadecimal digits, and [rooms] has no entry under
    the empty string. *)
Theorem stored_keys_format s :
  reachable s →
  rooms s !! "" = None ∧
  ∀ p room, rooms s !! p = Some room →
            p ≠ "" ∧ string_forallb is_digit p = true ∧ Js.trim p = p ∧
            is_roomId (roomId room) = true.
Proof.
  intros Hs. split; [by apply reachable_no_empty_key|].
  apply reachable_keys_generated in Hs as Hkeys.
  intros p room Hroom. destruct (Hkeys _ _ Hroom) as [[k ->] Hrid].
    split_and!; [apply candidate_nonempty|apply candidate_digits|
                 apply candidate_trim|done].
Qed.

Lemma stored_keys_format_witness :
  Js.trim "123456" = "123456" ∧ is_roomId Scenario.keyA = true.
Proof.
  destruct (stored_keys_format (Scenario.after Scenario.two_party)
              (run_reachable initial Scenario.two_party _
                 [[]; []; [("a", roomCreated "123456" Scenario.keyA 2401000%Z)];
                  Scenario.last_emitted Scenario.two_party]
                 reachable_initial eq_refl)) as [_ Hfmt].
  destruct (Hfmt "123456" (mkRoom Scenario.keyA 2401000) eq_refl)
    as (_ & _ & Htrim & Hrid).
  split; [exact Htrim | exact Hrid].
Defined.

(** X5.  Only [createRoom] and a timeout change the room store: whenever a
    step leaves [rooms], [roomIds] or the pending timeouts different, its
    event is one of these two.  Leaving or losing every member does not
    remove a room. *)
Theorem store_changed_only_by s ev s' out :
  step s ev = Some (s', out) →
  rooms s' ≠ rooms s ∨ roomIds s' ≠ roomIds s ∨ timers s' ≠ timers s →
  (∃ sid draws bytes now, ev = CreateRoom sid draws bytes now) ∨
  (∃ p r, ev = Timeout p r).
Proof.
  intros Hsame%step_store_unchanged Hdiff.
  destruct ev as [sid|sid draws bytes now|sid args|sid msg|sid|sid|sid|sid|p r];
    try (destruct Hsame as (Hrooms & Hids & Htimers);
         destruct Hdiff as [?|[?|?]]; done).
  - left. by eexists _, _, _, _.
  - right. by eexists _, _.
Qed.

Lemma store_changed_only_by_witness :
  (∃ sid draws bytes now,
     CreateRoom "a" [5%N] Scenario.bytesB 7000 = CreateRoom sid draws bytes now) ∨
  (∃ p r, CreateRoom "a" [5%N] Scenario.bytesB 7000 = Timeout p r).
Proof.
  apply (store_changed_only_by (Scenario.after Scenario.two_party)
           (CreateRoom "a" [5%N] Scenario.bytesB 7000)
           (Scenario.after
              (Scenario.two_party ++ [CreateRoom "a" [5%N] Scenario.bytesB 7000]))
           (Scenario.last_emitted
              (Scenario.two_party ++ [CreateRoom "a" [5%N] Scenario.bytesB 7000]))).
  - vm_compute. reflexivity.
  - left. intros Heq.
    assert (rooms (Scenario.after
                     (Scenario.two_party
                      ++ [CreateRoom "a" [5%N] Scenario.bytesB 7000]))
              !! "100005" = rooms (Scenario.after Scenario.two_party) !! "100005")
      as Hlook by (by rewrite Heq).
    vm_compute in Hlook. discriminate Hlook.
Defined.

(** X6.  In a state reached without a room-key collision, a live room is
    found by its passcode, with or without white space around it, and by
    its [roomId] alone; and the passcode that a [joinSuccess] carries is a
    passcode under which the joined room, with the [expireAt] reported, is
    stored. *)
Theorem lookups_agree s :
  reachable_fresh s →
  (∀ p room q name,
     rooms s !! p = Some room → Js.trim q = p →
     findRoom s (mkJoinArgs (Some q) None name) = Some room ∧
     findRoom s (mkJoinArgs None (Some (roomId room)) name) = Some room) ∧
  (∀ sid args s' out rid pc e,
     step s (JoinRoom sid args) = Some (s', out) →
     (sid, joinSuccess rid pc e) ∈ out →
     ∃ p, pc = Some p ∧ rooms s !! p = Some (mkRoom rid e)).
Proof.
  intros Hs. pose proof (reachable_fresh_store_inv _ Hs) as [Hf Hb _].
  apply reachable_fresh_reachable, reachable_keys_generated in Hs.
  split.
  - intros p room q name Hroom Hq.
    destruct (Hs _ _ Hroom) as [[k ->] Hrid]. unfold findRoom. simpl.
    assert (q ≠ "") as Hne.
    { intros ->. by apply (candidate_nonempty k). }
    rewrite (bool_decide_eq_true_2 _ Hne), Hq.
    rewrite (bool_decide_eq_true_2 _ (is_roomId_nonempty _ Hrid)).
    rewrite (Hf _ _ Hroom). simpl.
    by rewrite (bool_decide_eq_true_2 _ (candidate_nonempty k)).
  - intros sid args s' out rid pc e [_ Hjoin]%step_joinRoom Hin.
    assert (Hin' : (sid, joinSuccess rid pc e) ∈ (joinRoom sid args s).2)
      by (by rewrite Hjoin).
    destruct (joinRoom_success_inv _ _ _ _ _ _ Hin')
      as (room & Hfind & <- & Hfull).
    destruct (joinRoom_accepted sid args s room Hfind Hfull) as (Hout & _).
    rewrite Hout in Hin'.
    apply elem_of_cons in Hin' as [Heq|Hin'];
      [|by apply elem_of_io_to_emit in Hin' as [[=] _]].
    apply findRoom_live in Hfind as [p Hp]. exists p.
    simplify_eq. rewrite (Hf _ _ Hp). by destruct room.
Qed.

Lemma lookups_agree_witness :
  findRoom (Scenario.after Scenario.two_party)
    (mkJoinArgs (Some "  123456 ") None None)
  = Some (mkRoom Scenario.keyA 2401000) ∧
  findRoom (Scenario.after Scenario.two_party)
    (mkJoinArgs None (Some Scenario.keyA) None)
  = Some (mkRoom Scenario.keyA 2401000).
Proof.
  apply (proj1 (lookups_agree (Scenario.after Scenario.two_party)
                  (run_fresh_reachable initial Scenario.two_party _
                     reachable_fresh_initial eq_refl))
           "123456" (mkRoom Scenario.keyA 2401000) "  123456 " None).
  - vm_compute. reflexivity.
  - vm_compute. reflexivity.
Defined.

(** X7.  A passcode that is not empty but consists of white space only is
    answered ["Invalid or expired passcode."] in every reachable state,
    whatever [roomId] comes with it: the passcode is looked at first, and a
    live [roomId] in the same call is not used. *)
Theorem blank_passcode_rejected s sid q rid name :
  reachable s → is_Some (sockets s !! sid) →
  q ≠ "" → Js.trim q = "" →
  step s (JoinRoom sid (mkJoinArgs (Some q) rid name))
  = Some (s, [(sid, systemMessage "Invalid or expired passcode.")]).
Proof.
  intros Hempty%reachable_no_empty_key [sk Hsk] Hq Htrim.
  simpl. rewrite Hsk. simpl. unfold joinRoom, findRoom. simpl.
  by rewrite (bool_decide_eq_true_2 _ Hq), Htrim, Hempty.
Qed.

Lemma blank_passcode_rejected_witness :
  step (Scenario.after Scenario.two_party)
    (JoinRoom "b" (mkJoinArgs (Some "  ") (Some Scenario.keyA) (Some "Bob")))
  = Some (Scenario.after Scenario.two_party,
          [("b", systemMessage "Invalid or expired passcode.")]).
Proof.
  apply (blank_passcode_rejected (Scenario.after Scenario.two_party) "b" "  "
           (Some Scenario.keyA) (Some "Bob")).
  - apply (run_reachable initial Scenario.two_party _
             [[]; []; [("a", roomCreated "123456" Scenario.keyA 2401000%Z)];
              Scenario.last_emitted Scenario.two_party]
             reachable_initial eq_refl).
  - exists (mkSocket (Some Scenario.keyA) (Some "Bob")). vm_compute. reflexivity.
  - intros H. discriminate H.
  - vm_compute. reflexivity.
Defined.

(** ** The adapter and the connected sockets *)

Lemma adapter_inv_join sid rid s a' sockets' :
  adapter_inv s → is_Some (sockets s !! sid) →
  a' = Adapter.join sid rid (adapter s) →
  (∀ d, is_Some (sockets s !! d) → is_Some (sockets' !! d)) →
  adapter_inv {| rooms := rooms s; roomIds := roomIds s; adapter := a';
                 sockets := sockets'; timers := timers s |}.
Proof.
  intros [Hne Hconn] Hsid -> Hsockets. split; simpl; unfold Adapter.join.
  - intros r m. destruct (decide (rid = r)) as [<-|Hr].
    + rewrite lookup_insert_eq. intros [= <-]. set_solver.
    + rewrite lookup_insert_ne by done. apply Hne.
  - intros r m d. destruct (decide (rid = r)) as [<-|Hr].
    + rewrite lookup_insert_eq. intros [= <-].
      intros [->%elem_of_singleton|Hd]%elem_of_union; apply Hsockets; [done|].
      unfold Adapter.membersOf in Hd.
      destruct (adapter s !! rid) as [m|] eqn:Hm; [by eapply Hconn|].
      by apply not_elem_of_empty in Hd.
    + rewrite lookup_insert_ne by done. intros Hm Hd.
      apply Hsockets. by eapply Hconn.
Qed.

Lemma is_Some_alter_sockets (f : Socket → Socket) sid (m : gmap string Socket) d :
  is_Some (m !! d) → is_Some (alter f sid m !! d).
Proof.
  intros [sk Hsk]. destruct (decide (sid = d)) as [->|Hne].
  - rewrite lookup_alter_eq, Hsk. by eexists.
  - rewrite lookup_alter_ne by done. by eexists.
Qed.

Lemma adapter_inv_same s s' :
  adapter_inv s → adapter s' = adapter s → sockets s' = sockets s →
  adapter_inv s'.
Proof. intros [Hne Hconn] Ha Hs. split; rewrite Ha, ?Hs; done. Qed.

Lemma adapter_inv_step s ev s' out :
  adapter_inv s → step s ev = Some (s', out) → adapter_inv s'.
Proof.
  intros Hinv Hstep.
  destruct ev as [sid|sid draws bytes now|sid args|sid msg|sid|sid|sid|sid|p r].
  - simpl in Hstep. destruct (sockets s !! sid) eqn:Hsid; [done|].
    injection Hstep as <- _. destruct Hinv as [Hne Hconn]. split; simpl; [done|].
    intros r m d Hm Hd. destruct (Hconn _ _ _ Hm Hd) as [sk Hsk].
    exists sk. rewrite lookup_insert_ne; [done|]. intros ->. congruence.
  - apply step_createRoom in Hstep
      as (p & Hsid & _ & _ & Hrooms & Hids & Ha & Hsk & Htm).
    eapply (adapter_inv_same
              {| rooms := rooms s; roomIds := roomIds s; adapter := adapter s';
                 sockets := sockets s'; timers := timers s |}); [|done..].
    eapply adapter_inv_join; [done..|].
    intros d. rewrite Hsk. apply is_Some_alter_sockets.
  - apply step_joinRoom in Hstep as [Hsid Hjoin]. unfold joinRoom in Hjoin.
    destruct (findRoom s args) as [room|]; [|by simplify_eq].
    destruct (isFull (adapter s) sid (roomId room)); [by simplify_eq|].
    injection Hjoin as <- _.
    eapply adapter_inv_join; [done..|]. intros d. apply is_Some_alter_sockets.
  - simpl in Hstep. destruct (sockets s !! sid) as [sk|]; [|done].
    simpl in Hstep. unfold sendMessage in Hstep. by case_match; simplify_eq.
  - simpl in Hstep. destruct (sockets s !! sid) as [sk|]; [|done].
    simpl in Hstep. unfold typing in Hstep. by case_match; simplify_eq.
  - simpl in Hstep. destruct (sockets s !! sid) as [sk|]; [|done].
    simpl in Hstep. unfold stopTyping in Hstep. by case_match; simplify_eq.
  - simpl in Hstep. destruct (sockets s !! sid) as [sk|]; [|done].
    simpl in Hstep. unfold quitRoom in Hstep.
    case_match; simplify_eq; [done|].
    destruct Hinv as [Hne Hconn]. split; simpl.
    + intros r m. unfold Adapter.leave.
      destruct (adapter s !! default "" (socket_roomId sk)) as [m0|] eqn:Hm0;
        [|apply Hne].
      destruct (Adapter.drop sid m0) as [m1|] eqn:Hd.
      * destruct (decide (default "" (socket_roomId sk) = r)) as [<-|Hr].
        -- rewrite lookup_insert_eq. intros [= <-]. unfold Adapter.drop in Hd.
           case_decide; by simplify_eq.
        -- rewrite lookup_insert_ne by done. apply Hne.
      * intros [_ Hm]%lookup_delete_Some. by eapply Hne.
    + intros r m d (m0 & Hm0 & Hsub)%lookup_leave_Some Hd.
      eapply Hconn; [done|]. by apply Hsub.
  - simpl in Hstep. destruct (sockets s !! sid) as [sk|]; [|done].
    simpl in Hstep.
    assert (adapter_inv
              {| rooms := rooms s; roomIds := roomIds s;
                 adapter := Adapter.leaveAll sid (adapter s);
                 sockets := delete sid (sockets s); timers := timers s |}).
    { destruct Hinv as [Hne Hconn]. split; simpl.
      - intros r m. unfold Adapter.leaveAll. rewrite lookup_omap.
        destruct (adapter s !! r) as [m0|]; simpl; [|done].
        unfold Adapter.drop. case_decide; [done|]. by intros [= <-].
      - intros r m d Hm Hd.
        assert (d ∈ Adapter.membersOf (Adapter.leaveAll sid (adapter s)) r)
          as Hd' by (by rewrite (membersOf_Some _ _ _ Hm)).
        rewrite membersOf_leaveAll in Hd'.
        apply elem_of_difference in Hd' as [Hd0 Hne'].
        rewrite lookup_delete_ne by set_solver.
        unfold Adapter.membersOf in Hd0.
        destruct (adapter s !! r) as [m0|] eqn:Hm0; [by eapply Hconn|].
        by apply not_elem_of_empty in Hd0. }
    unfold disconnect in Hstep. by case_match; simplify_eq.
  - apply step_timeout in Hstep as (_ & _ & _ & _ & Hsk & Hcase).
    destruct Hcase as [(_ & _ & _ & Ha & _)|(_ & _ & _ & Ha & _)];
      [|by eapply adapter_inv_same].
    destruct Hinv as [Hne Hconn]. split; rewrite Ha, ?Hsk.
    + intros r' m [_ Hm]%lookup_delete_Some. by eapply Hne.
    + intros r' m d [_ Hm]%lookup_delete_Some. by eapply Hconn.
Qed.

Lemma reachable_adapter_inv s : reachable s → adapter_inv s.
Proof.
  induction 1 as [|s ev s' out _ IH Hstep]; [by split|].
  by eapply adapter_inv_step.
Qed.

Lemma membersOf_connected s r d :
  adapter_inv s → d ∈ Adapter.membersOf (adapter s) r → is_Some (sockets s !! d).
Proof.
  intros [_ Hconn]. unfold Adapter.membersOf.
  destruct (adapter s !! r) as [m|] eqn:Hm; [by eapply Hconn|].
  intros Hd. by apply not_elem_of_empty in Hd.
Qed.

(** X8.  In every reachable state the adapter holds no empty room and every
    member of a room is a connected socket; and whatever a step emits goes
    to sockets that are connected before the step and after it. *)
Theorem deliveries_to_connected s :
  reachable s →
  (∀ r m, adapter s !! r = Some m → m ≠ ∅) ∧
  (∀ r d, d ∈ Adapter.membersOf (adapter s) r → is_Some (sockets s !! d)) ∧
  (∀ ev s' out d e,
     step s ev = Some (s', out) → (d, e) ∈ out →
     is_Some (sockets s !! d) ∧ is_Some (sockets s' !! d)).
Proof.
  intros Hs. pose proof (reachable_adapter_inv _ Hs) as Hinv.
  split_and!.
  - apply Hinv.
  - intros r d. by apply membersOf_connected.
  - intros ev s' out d e Hstep Hin.
    pose proof (adapter_inv_step _ _ _ _ Hinv Hstep) as Hinv'.
    destruct ev as [sid|sid draws bytes now|sid args|sid msg|sid|sid|sid|sid|p r].
    + simpl in Hstep. case_match; [done|]. simplify_eq.
      by apply elem_of_nil in Hin.
    + apply step_createRoom in Hstep as (p & Hsid & _ & -> & _ & _ & _ & Hsk & _).
      apply list_elem_of_singleton in Hin as [= -> ->]. split; [done|].
      rewrite Hsk. by apply is_Some_alter_sockets.
    + apply step_joinRoom in Hstep as [Hsid Hjoin]. unfold joinRoom in Hjoin.
      destruct (findRoom s args) as [room|].
      2:{ simplify_eq. by apply list_elem_of_singleton in Hin as [= -> ->]. }
      destruct (isFull (adapter s) sid (roomId room)).
      { simplify_eq. by apply list_elem_of_singleton in Hin as [= -> ->]. }
      injection Hjoin as <- <-. simpl.
      assert (is_Some (sockets s !! d)) as Hd.
      { apply elem_of_cons in Hin as [[= -> _]|Hin]; [done|].
        apply elem_of_io_to_emit in Hin as [_ Hin].
        rewrite membersOf_join in Hin.
        apply elem_of_union in Hin as [->%elem_of_singleton|Hin]; [done|].
        by eapply membersOf_connected. }
      split; [done|]. by apply is_Some_alter_sockets.
    + simpl in Hstep. destruct (sockets s !! sid) as [sk|]; [|done].
      simpl in Hstep. unfold sendMessage in Hstep.
      case_match; simplify_eq; [by apply elem_of_nil in Hin|].
      apply elem_of_socket_to_emit in Hin as (_ & Hin & _).
      split; by eapply membersOf_connected.
    + simpl in Hstep. destruct (sockets s !! sid) as [sk|]; [|done].
      simpl in Hstep. unfold typing in Hstep.
      case_match; simplify_eq; [|by apply elem_of_nil in Hin].
      apply elem_of_socket_to_emit in Hin as (_ & Hin & _).
      split; by eapply membersOf_connected.
    + simpl in Hstep. destruct (sockets s !! sid) as [sk|]; [|done].
      simpl in Hstep. unfold stopTyping in Hstep.
      case_match; simplify_eq; [|by apply elem_of_nil in Hin].
      apply elem_of_socket_to_emit in Hin as (_ & Hin & _).
      split; by eapply membersOf_connected.
    + simpl in Hstep. destruct (sockets s !! sid) as [sk|]; [|done].
      simpl in Hstep. unfold quitRoom in Hstep.
      case_match; simplify_eq; [by apply elem_of_nil in Hin|]. simpl.
      apply elem_of_socket_to_emit in Hin as (_ & Hin & _).
      split; by eapply membersOf_connected.
    + simpl in Hstep. destruct (sockets s !! sid) as [sk|]; [|done].
      simpl in Hstep. unfold disconnect in Hstep.
      case_match; simplify_eq; [|by apply elem_of_nil in Hin]. simpl in *.
      apply elem_of_socket_to_emit in Hin as (_ & Hin & Hne).
      assert (is_Some (delete sid (sockets s) !! d)) as Hd
        by (by eapply (membersOf_connected _ _ _ Hinv')).
      split; [|done]. by rewrite lookup_delete_ne in Hd.
    + apply step_timeout in Hstep as (_ & _ & _ & _ & Hsk & Hcase).
      rewrite Hsk.
      destruct Hcase as [(_ & _ & _ & _ & ->)|(_ & _ & _ & _ & ->)];
        [|by apply elem_of_nil in Hin].
      apply elem_of_io_to_emit in Hin as [_ Hin].
      split; by eapply membersOf_connected.
Qed.

Lemma deliveries_to_connected_witness :
  is_Some (sockets (Scenario.after Scenario.two_party) !! "a").
Proof.
  refine (proj1 (proj2 (proj2
    (deliveries_to_connected
       (Scenario.after [Connection "a"; Connection "b";
                        CreateRoom "a" [23456%N] Scenario.bytesA 1000]) _))
    (JoinRoom "b" (Scenario.byPasscode "123456" "Bob"))
    (Scenario.after Scenario.two_party)
    (Scenario.last_emitted Scenario.two_party)
    "a" (systemMessage "Bob joined.") _ _)).
  - apply (run_reachable initial
             [Connection "a"; Connection "b";
              CreateRoom "a" [23456%N] Scenario.bytesA 1000] _
             [[]; []; [("a", roomCreated "123456" Scenario.keyA 2401000%Z)]]
             reachable_initial eq_refl).
  - vm_compute. reflexivity.
  - vm_compute. apply list_elem_of_further, list_elem_of_here.
Defined.

(** X9.  [disconnect]: the socket object is gone and the socket is in no
    room any more, every room keeps its other members, the other sockets
    and the room store are untouched; a socket without [socket.roomId]
    emits nothing, and one with a [roomId] has
    ["<userName or User> disconnected."] sent to the members of that room
    that remain, and to nobody else. *)
Theorem disconnect_effect s c sk s' out :
  sockets s !! c = Some sk →
  step s (Disconnect c) = Some (s', out) →
  sockets s' !! c = None ∧
  (∀ d, d ≠ c → sockets s' !! d = sockets s !! d) ∧
  (∀ room, Adapter.membersOf (adapter s') room
           = Adapter.membersOf (adapter s) room ∖ {[c]}) ∧
  rooms s' = rooms s ∧ roomIds s' = roomIds s ∧ timers s' = timers s ∧
  (socket_roomId sk = None → out = []) ∧
  (∀ rid, socket_roomId sk = Some rid → rid ≠ "" →
     NoDup out ∧
     ∀ d e, (d, e) ∈ out ↔
            e = systemMessage
                  (Js.or_else (socket_userName sk) "User" +:+ " disconnected.") ∧
            d ∈ Adapter.membersOf (adapter s) rid ∧ d ≠ c).
Proof.
  intros Hsk. simpl. rewrite Hsk. simpl. unfold disconnect.
  intros Hstep.
  assert (s' = {| rooms := rooms s; roomIds := roomIds s;
                  adapter := Adapter.leaveAll c (adapter s);
                  sockets := delete c (sockets s); timers := timers s |})
    as -> by (by case_match; simplify_eq).
  simpl. split_and!; try done.
  - apply lookup_delete_eq.
  - intros d Hd. by rewrite lookup_delete_ne.
  - intros room. apply membersOf_leaveAll.
  - intros Hnone. rewrite Hnone in Hstep. simpl in Hstep. by simplify_eq.
  - intros rid Hrid Hne. rewrite Hrid in Hstep. simpl in Hstep.
    rewrite (bool_decide_eq_true_2 _ Hne) in Hstep. simplify_eq. split.
    + unfold socket_to_emit. apply NoDup_fmap_2; [|apply NoDup_elements].
      by intros x y [= ->].
    + intros d e. rewrite elem_of_socket_to_emit, membersOf_leaveAll.
      set_solver.
Qed.

Lemma disconnect_effect_witness :
  ∃ s' out,
    step (Scenario.after Scenario.two_party) (Disconnect "b") = Some (s', out) ∧
    ("a", systemMessage "Bob disconnected.") ∈ out ∧
    sockets s' !! "b" = None.
Proof.
  destruct (step (Scenario.after Scenario.two_party) (Disconnect "b"))
    as [[s' out]|] eqn:Hstep; [|vm_compute in Hstep; discriminate Hstep].
  exists s', out.
  destruct (disconnect_effect (Scenario.after Scenario.two_party) "b"
              (mkSocket (Some Scenario.keyA) (Some "Bob")) s' out)
    as (Hgone & _ & _ & _ & _ & _ & _ & Hout).
  - vm_compute. reflexivity.
  - exact Hstep.
  - split; [reflexivity|]. split; [|exact Hgone].
    destruct (Hout Scenario.keyA eq_refl) as [_ Hiff].
    + intros H. discriminate H.
    + apply Hiff. split; [reflexivity|]. split.
      * vm_compute. set_solver.
      * intros H. discriminate H.
Defined.

(** ** A socket that is in no room *)

Lemma step_unplaced c s ev s' out :
  sockets s !! c = Some (mkSocket None None) →
  step s ev = Some (s', out) →
  (∀ e, (c, e) ∈ out → is_placement e = false) →
  ev ≠ Disconnect c →
  sockets s' !! c = Some (mkSocket None None).
Proof.
  intros Hc Hstep Hout Hev.
  destruct ev as [sid|sid draws bytes now|sid args|sid msg|sid|sid|sid|sid|p r].
  - simpl in Hstep. destruct (sockets s !! sid) eqn:Hsid; [done|].
    simplify_eq. simpl. rewrite lookup_insert_ne; [done|]. intros ->. congruence.
  - apply step_createRoom in Hstep as (p & _ & _ & -> & _ & _ & _ & -> & _).
    destruct (decide (sid = c)) as [->|Hne].
    + specialize (Hout _ (list_elem_of_here _ _)). done.
    + by rewrite lookup_alter_ne.
  - apply step_joinRoom in Hstep as [_ Hjoin]. unfold joinRoom in Hjoin.
    destruct (findRoom s args) as [room|]; [|by simplify_eq].
    destruct (isFull (adapter s) sid (roomId room)); [by simplify_eq|].
    injection Hjoin as <- <-. simpl.
    destruct (decide (sid = c)) as [->|Hne].
    + specialize (Hout _ (list_elem_of_here _ _)). done.
    + by rewrite lookup_alter_ne.
  - simpl in Hstep. destruct (sockets s !! sid) as [sk|]; [|done].
    simpl in Hstep. unfold sendMessage in Hstep. by case_match; simplify_eq.
  - simpl in Hstep. destruct (sockets s !! sid) as [sk|]; [|done].
    simpl in Hstep. unfold typing in Hstep. by case_match; simplify_eq.
  - simpl in Hstep. destruct (sockets s !! sid) as [sk|]; [|done].
    simpl in Hstep. unfold stopTyping in Hstep. by case_match; simplify_eq.
  - simpl in Hstep. destruct (sockets s !! sid) as [sk|]; [|done].
    simpl in Hstep. unfold quitRoom in Hstep. by case_match; simplify_eq.
  - simpl in Hstep. destruct (sockets s !! sid) as [sk|]; [|done].
    simpl in Hstep. unfold disconnect in Hstep.
    case_match; simplify_eq; simpl; rewrite lookup_delete_ne; congruence.
  - apply step_timeout in Hstep as (_ & _ & _ & _ & Hsk & _). by rewrite Hsk.
Qed.

(** X10.  A connected socket that has been sent neither [roomCreated] nor
    [joinSuccess] has no [socket.roomId]: its [sendMessage], [typing],
    [stopTyping] and [quitRoom] emit nothing and change nothing, and its
    [disconnect] emits nothing.  (A [joinRoom] that was refused leaves it
    so.) *)
Theorem unplaced_socket_is_silent c s evs s' outs :
  sockets s !! c = Some (mkSocket None None) →
  run s evs = Some (s', outs) →
  Forall (λ ev, ev ≠ Disconnect c) evs →
  Forall (λ out, ∀ e, (c, e) ∈ out → is_placement e = false) outs →
  sockets s' !! c = Some (mkSocket None None) ∧
  (∀ message, step s' (SendMessage c message) = Some (s', [])) ∧
  step s' (Typing c) = Some (s', []) ∧
  step s' (StopTyping c) = Some (s', []) ∧
  step s' (QuitRoom c) = Some (s', []) ∧
  ∃ s'', step s' (Disconnect c) = Some (s'', []).
Proof.
  intros Hc Hrun Hevs Houts.
  assert (sockets s' !! c = Some (mkSocket None None)) as Hc'.
  { revert s outs Hc Hrun Houts.
    induction Hevs as [|ev evs Hev _ IH]; intros s outs Hc; simpl.
    - by intros [= <- _].
    - destruct (step s ev) as [[s1 out]|] eqn:Hstep; simpl; [|done].
      destruct (run s1 evs) as [[s2 outs']|] eqn:Hrun; simpl; [|done].
      intros [= <- <-] [Hout Houts]%Forall_cons.
      eapply (IH s1); [|done..]. by eapply step_unplaced. }
  split; [done|]. simpl. rewrite Hc'. simpl. split_and!; try done.
  by eexists.
Qed.

Lemma unplaced_socket_is_silent_witness :
  step (Scenario.after
          (Scenario.two_party
           ++ [Connection "c";
               JoinRoom "c" (Scenario.byPasscode "123456" "Carol")]))
    (SendMessage "c" "hello")
  = Some (Scenario.after
            (Scenario.two_party
             ++ [Connection "c";
                 JoinRoom "c" (Scenario.byPasscode "123456" "Carol")]), []).
Proof.
  refine (proj1 (proj2
    (unplaced_socket_is_silent "c"
       (connection "c" (Scenario.after Scenario.two_party))
       [JoinRoom "c" (Scenario.byPasscode "123456" "Carol")]
       _ [[("c", systemMessage "Room is full.")]] _ _ _ _)) "hello").
  - vm_compute. reflexivity.
  - vm_compute. reflexivity.
  - apply Forall_cons. split; [|apply Forall_nil; exact I].
    intros H. discriminate H.
  - apply Forall_cons. split; [|apply Forall_nil; exact I].
    intros e He. apply list_elem_of_singleton in He.
    injection He as ->. reflexivity.
Defined.

(** ** From [createRoom] to the first message *)

Lemma findRoom_ext s s' args :
  rooms s' = rooms s → roomIds s' = roomIds s →
  findRoom s' args = findRoom s args.
Proof. intros Hrooms Hids. unfold findRoom. by rewrite Hrooms, Hids. Qed.

Lemma trim_empty : Js.trim "" = "".
Proof. reflexivity. Qed.

(** X11.  The creator's answer names a stored room: after [createRoom] the
    passcode and the [roomId] of [roomCreated] are keys of [rooms] and
    [roomIds] for the same room, which expires forty minutes after [now];
    the [roomId] has thirty-two hexadecimal digits; the creator is in the
    room, its [socket.roomId] is that [roomId] and its [socket.userName] is
    what it was; the timeout is pending; and a [joinRoom] finds the room by
    that passcode and by that [roomId]. *)
Theorem createRoom_effect s sid draws bytes now s' out :
  step s (CreateRoom sid draws bytes now) = Some (s', out) →
  ∃ p rid,
    let room := mkRoom rid (now + 2400000)%Z in
    out = [(sid, roomCreated p rid (now + 2400000)%Z)] ∧
    is_roomId rid = true ∧
    rooms s' !! p = Some room ∧
    roomIds s' !! rid = Some p ∧
    (p, rid) ∈ timers s' ∧
    sid ∈ Adapter.membersOf (adapter s') rid ∧
    sockets s' !! sid = set_roomId rid <$> sockets s !! sid ∧
    (∀ name, findRoom s' (mkJoinArgs (Some p) None name) = Some room) ∧
    (∀ name, findRoom s' (mkJoinArgs None (Some rid) name) = Some room).
Proof.
  intros (p & Hsid & Hp & Hout & Hrooms & Hids & Ha & Hsk & Htm)%step_createRoom.
  exists p, (Js.hex (vec_to_list bytes)). simpl.
  apply generateUniquePasscode_free in Hp as (_ & k & _ & ->).
  pose proof (hex_is_roomId bytes) as Hrid.
  split_and!; try done.
  - rewrite Hrooms. apply lookup_insert_eq.
  - rewrite Hids. apply lookup_insert_eq.
  - rewrite Htm. apply elem_of_app. right. by left.
  - rewrite Ha, membersOf_join. set_solver.
  - by rewrite Hsk, lookup_alter_eq.
  - intros name. unfold findRoom. simpl.
    rewrite (bool_decide_eq_true_2 _ (candidate_nonempty k)), candidate_trim.
    rewrite Hrooms. apply lookup_insert_eq.
  - intros name. unfold findRoom. simpl.
    rewrite (bool_decide_eq_true_2 _ (is_roomId_nonempty _ Hrid)).
    rewrite Hids, lookup_insert_eq. simpl.
    rewrite (bool_decide_eq_true_2 _ (candidate_nonempty k)).
    rewrite Hrooms. apply lookup_insert_eq.
Qed.

Lemma createRoom_effect_witness :
  ∃ p rid,
    Scenario.last_emitted
      [Connection "a"; CreateRoom "a" [23456%N] Scenario.bytesA 1000]
    = [("a", roomCreated p rid 2401000%Z)] ∧
    is_roomId rid = true.
Proof.
  destruct (createRoom_effect (connection "a" initial) "a" [23456%N]
              Scenario.bytesA 1000%Z
              (Scenario.after
                 [Connection "a"; CreateRoom "a" [23456%N] Scenario.bytesA 1000])
              (Scenario.last_emitted
                 [Connection "a"; CreateRoom "a" [23456%N] Scenario.bytesA 1000]))
    as (p & rid & Hout & Hrid & _).
  - vm_compute. reflexivity.
  - exists p, rid. split; [exact Hout | exact Hrid].
Defined.

Lemma isFull_small a sid rid :
  size (Adapter.membersOf a rid) < 2 → isFull a sid rid = false.
Proof.
  unfold isFull. intros Hsz. destruct (a !! rid) as [m|] eqn:Hm; [|done].
  rewrite (membersOf_Some _ _ _ Hm) in Hsz.
  rewrite bool_decide_eq_false_2; [done|lia].
Qed.

(** X12.  Two parties: in a state reached without a room-key collision, let
    [a] create a room under a key no live room has, and another connected
    socket [b] call [joinRoom] with the passcode [a] was answered, with or
    without white space around it.  Then [b] gets [joinSuccess] with the
    [roomId], passcode and [expireAt] that [a] was given, the notice
    ["<name> joined."] goes to [a] and to [b] and to nobody else, the room
    holds exactly [a] and [b], and a [sendMessage] of [b] is delivered to
    [a] alone, with [from] the name of the join ("Anonymous" when none was
    given). *)
Theorem create_join_send s a b draws bytes now s1 p rid e q r0 name :
  reachable_fresh s →
  roomIds s !! Js.hex (vec_to_list bytes) = None →
  step s (CreateRoom a draws bytes now) = Some (s1, [(a, roomCreated p rid e)]) →
  is_Some (sockets s !! b) → a ≠ b →
  Js.trim q = p →
  let userName := Js.or_else name "Anonymous" in
  ∃ s2 out2,
    step s1 (JoinRoom b (mkJoinArgs (Some q) r0 name)) = Some (s2, out2) ∧
    (b, joinSuccess rid (Some p) e) ∈ out2 ∧
    (∀ d t, (d, systemMessage t) ∈ out2
            ↔ t = userName +:+ " joined." ∧ (d = a ∨ d = b)) ∧
    Adapter.membersOf (adapter s2) rid = {[a; b]} ∧
    ∀ message,
      step s2 (SendMessage b message)
      = Some (s2, [(a, newMessage message (Some userName))]).
Proof.
  intros Hs Hfresh Hcreate [skb Hb] Hab Hq userName.
  pose proof (reachable_fresh_store_inv _ Hs) as [_ _ Hg].
  apply step_createRoom in Hcreate
    as (p0 & _ & Hp & [= -> -> ->] & Hrooms & Hids & Ha & Hsk & _).
  set (rid := Js.hex (vec_to_list bytes)) in *.
  set (room := mkRoom rid (now + 2400000)%Z) in *.
  apply generateUniquePasscode_free in Hp as (_ & k & _ & Hk).
  assert (Adapter.membersOf (adapter s1) rid = {[a]}) as Hmem1.
  { rewrite Ha, membersOf_join. rewrite membersOf_None; [set_solver|].
    destruct (adapter s !! rid) as [m|] eqn:Hm; [|done].
    destruct (Hg _ _ Hm) as [[? ?] _]. congruence. }
  assert (findRoom s1 (mkJoinArgs (Some q) r0 name) = Some room) as Hfind.
  { unfold findRoom. simpl. rewrite bool_decide_eq_true_2.
    - rewrite Hq, Hrooms. apply lookup_insert_eq.
    - intros ->. rewrite trim_empty in Hq.
      apply (candidate_nonempty k). congruence. }
  assert (isFull (adapter s1) b rid = false) as Hfull.
  { apply isFull_small. rewrite Hmem1, size_singleton. lia. }
  destruct (joinRoom_accepted b _ s1 room Hfind Hfull)
    as (Hout & Hadapter & Hsockets & _). simpl in Hout, Hadapter, Hsockets.
  fold userName in Hout, Hsockets.
  assert (sockets s1 !! b = Some skb) as Hb1
    by (by rewrite Hsk, lookup_alter_ne).
  set (s2 := (joinRoom b (mkJoinArgs (Some q) r0 name) s1).1) in *.
  set (out2 := (joinRoom b (mkJoinArgs (Some q) r0 name) s1).2) in *.
  assert (Adapter.membersOf (adapter s2) rid = {[a; b]}) as Hmem2.
  { rewrite Hadapter, membersOf_join, Hmem1. set_solver. }
  exists s2, out2. split_and!.
  - simpl. rewrite Hb1. simpl. by rewrite (surjective_pairing (joinRoom _ _ _)).
  - rewrite Hout, Hids, lookup_insert_eq. apply list_elem_of_here.
  - intros d t. rewrite Hout, elem_of_cons, elem_of_io_to_emit, Hmem2.
    split.
    + intros [[=]|[[= ->] Hd]]. set_solver.
    + intros [-> Hd]. right. set_solver.
  - done.
  - intros message. simpl.
    rewrite Hsockets, lookup_alter_eq, Hb1. simpl. unfold sendMessage. simpl.
    rewrite (bool_decide_eq_true_2 _ (is_roomId_nonempty _ (hex_is_roomId bytes))).
    simpl. unfold socket_to_emit. rewrite Hmem2.
    replace ({[a; b]} ∖ {[b]} : gset string) with ({[a]} : gset string)
      by set_solver.
    by rewrite elements_singleton.
Qed.

Lemma create_join_send_witness :
  ∃ s2 out2,
    step (Scenario.after [Connection "a"; Connection "b";
                          CreateRoom "a" [23456%N] Scenario.bytesA 1000])
      (JoinRoom "b" (mkJoinArgs (Some " 123456") None None)) = Some (s2, out2) ∧
    step s2 (SendMessage "b" "hi")
    = Some (s2, [("a", newMessage "hi" (Some "Anonymous"))]).
Proof.
  destruct (create_join_send
              (Scenario.after [Connection "a"; Connection "b"]) "a" "b"
              [23456%N] Scenario.bytesA 1000%Z
              (Scenario.after [Connection "a"; Connection "b";
                               CreateRoom "a" [23456%N] Scenario.bytesA 1000])
              "123456" Scenario.keyA 2401000%Z " 123456" None None)
    as (s2 & out2 & Hjoin & _ & _ & _ & Hsend).
  - apply (run_fresh_reachable initial [Connection "a"; Connection "b"] _
             reachable_fresh_initial eq_refl).
  - vm_compute. reflexivity.
  - vm_compute. reflexivity.
  - exists (mkSocket None None). vm_compute. reflexivity.
  - intros H. discriminate H.
  - vm_compute. reflexivity.
  - exists s2, out2. split; [exact Hjoin | exact (Hsend "hi")].
Defined.

(** X13.  In a state reached without a room-key collision, what
    [sendMessage], [typing] or [stopTyping] emits never comes back to the
    sender, goes only to members of the room named by the sender's
    [socket.roomId], and reaches at most one socket when the sender is in
    that room; the state is unchanged. *)
Theorem relay_reaches_one s c sk ev s' out :
  reachable_fresh s →
  sockets s !! c = Some sk →
  (∃ message, ev = SendMessage c message) ∨ ev = Typing c ∨ ev = StopTyping c →
  step s ev = Some (s', out) →
  let rid := default "" (socket_roomId sk) in
  s' = s ∧
  (∀ d e, (d, e) ∈ out → d ≠ c ∧ d ∈ Adapter.membersOf (adapter s) rid) ∧
  (c ∈ Adapter.membersOf (adapter s) rid → length out ≤ 1).
Proof.
  intros Hs Hsk Hev Hstep rid.
  assert (size (Adapter.membersOf (adapter s) rid) ≤ 2) as Hsz.
  { pose proof (reachable_fresh_store_inv _ Hs) as [_ _ Hg].
    destruct (adapter s !! rid) as [m|] eqn:Hm.
    - rewrite (membersOf_Some _ _ _ Hm). by destruct (Hg _ _ Hm).
    - rewrite (membersOf_None _ _ Hm), size_empty. lia. }
  assert ((∃ e, (s', out) = (s, socket_to_emit (adapter s) c rid e))
          ∨ (s', out) = (s, [])) as Hout.
  { destruct Hev as [[message ->]|[->| ->]]; simpl in Hstep;
      rewrite Hsk in Hstep; simpl in Hstep;
      [unfold sendMessage in Hstep|unfold typing in Hstep
       |unfold stopTyping in Hstep];
      case_match; simplify_eq; (by right) || (left; by eexists). }
  destruct Hout as [[e0 [= -> ->]]|[= -> ->]].
  - split_and!; [done| |].
    + intros d e (_ & Hd & Hne)%elem_of_socket_to_emit. done.
    + intros Hc. unfold socket_to_emit.
      rewrite length_fmap.
      change (size (Adapter.membersOf (adapter s) rid ∖ {[c]}) ≤ 1).
      rewrite size_difference by set_solver. rewrite size_singleton. lia.
  - split_and!; [done| |simpl; lia].
    intros d e Hin. by apply elem_of_nil in Hin.
Qed.

Lemma relay_reaches_one_witness :
  length (Scenario.last_emitted (Scenario.two_party ++ [Typing "a"])) ≤ 1.
Proof.
  refine (proj2 (proj2
    (relay_reaches_one (Scenario.after Scenario.two_party) "a"
       (mkSocket (Some Scenario.keyA) None) (Typing "a")
       (Scenario.after (Scenario.two_party ++ [Typing "a"]))
       (Scenario.last_emitted (Scenario.two_party ++ [Typing "a"]))
       _ _ _ _)) _).
  - apply (run_fresh_reachable initial Scenario.two_party _
             reachable_fresh_initial eq_refl).
  - vm_compute. reflexivity.
  - right. left. reflexivity.
  - vm_compute. reflexivity.
  - vm_compute. set_solver.
Defined.

(** X14.  Leaving frees a place: in a state reached without a room-key
    collision, when a member whose [socket.roomId] names the room calls
    [quitRoom], the other members are sent ["<userName> left."], and a
    [joinRoom] of any other connected socket for that room is then
    accepted, also when the room was full before. *)
Theorem quit_frees_a_place s b skb c args room :
  reachable_fresh s →
  sockets s !! b = Some skb →
  socket_roomId skb = Some (roomId room) →
  b ∈ Adapter.membersOf (adapter s) (roomId room) →
  findRoom s args = Some room →
  is_Some (sockets s !! c) →
  ∃ s1 out1 s2 out2,
    step s (QuitRoom b) = Some (s1, out1) ∧
    (∀ d e, (d, e) ∈ out1 ↔
            e = systemMessage (interpolate (socket_userName skb) +:+ " left.") ∧
            d ∈ Adapter.membersOf (adapter s) (roomId room) ∧ d ≠ b) ∧
    step s1 (JoinRoom c args) = Some (s2, out2) ∧
    (c, joinSuccess (roomId room) (roomIds s !! roomId room) (expireAt room))
      ∈ out2 ∧
    Adapter.membersOf (adapter s2) (roomId room)
    = {[c]} ∪ Adapter.membersOf (adapter s) (roomId room) ∖ {[b]}.
Proof.
  intros Hs Hb Hrid Hmember Hfind [skc Hc].
  pose proof (reachable_fresh_store_inv _ Hs) as [_ _ Hg].
  apply reachable_fresh_reachable, reachable_keys_generated in Hs.
  destruct (findRoom_live _ _ _ Hfind) as [p Hp].
  destruct (Hs _ _ Hp) as [_ Hfmt%is_roomId_nonempty].
  set (rid := roomId room) in *.
  set (s1 := {| rooms := rooms s; roomIds := roomIds s;
                adapter := Adapter.leave b rid (adapter s);
                sockets := sockets s; timers := timers s |}).
  assert (step s (QuitRoom b)
          = Some (s1, socket_to_emit (adapter s) b rid
                        (systemMessage
                           (interpolate (socket_userName skb) +:+ " left."))))
    as Hquit.
  { simpl. rewrite Hb. simpl. unfold quitRoom. rewrite Hrid. simpl.
    by rewrite (bool_decide_eq_true_2 _ Hfmt). }
  assert (size (Adapter.membersOf (adapter s1) rid) < 2) as Hsz.
  { simpl. rewrite membersOf_leave.
    rewrite size_difference by set_solver. rewrite size_singleton.
    assert (size (Adapter.membersOf (adapter s) rid) ≤ 2) as Hle.
    { destruct (adapter s !! rid) as [m|] eqn:Hm.
      - rewrite (membersOf_Some _ _ _ Hm). by destruct (Hg _ _ Hm).
      - rewrite (membersOf_None _ _ Hm), size_empty. lia. }
    assert (size (Adapter.membersOf (adapter s) rid) ≠ 0); [|lia].
    intros Hzero%size_empty_inv. set_solver. }
  assert (findRoom s1 args = Some room) as Hfind1
    by (by rewrite (findRoom_ext s s1)).
  pose proof (isFull_small _ c _ Hsz) as Hfull.
  destruct (joinRoom_accepted c args s1 room Hfind1 Hfull)
    as (Hout & Hadapter & _).
  eexists s1, _, (joinRoom c args s1).1, (joinRoom c args s1).2.
  split_and!.
  - exact Hquit.
  - intros d e. apply elem_of_socket_to_emit.
  - simpl. rewrite Hc. simpl. by rewrite (surjective_pairing (joinRoom _ _ _)).
  - rewrite Hout. apply list_elem_of_here.
  - rewrite Hadapter, membersOf_join. simpl. by rewrite membersOf_leave.
Qed.

Lemma quit_frees_a_place_witness :
  ∃ s1 out1 s2 out2,
    step (connection "c" (Scenario.after Scenario.two_party)) (QuitRoom "b")
    = Some (s1, out1) ∧
    step s1 (JoinRoom "c" (Scenario.byPasscode "123456" "Carol"))
    = Some (s2, out2) ∧
    ("c", joinSuccess Scenario.keyA (Some "123456") 2401000%Z) ∈ out2.
Proof.
  destruct (quit_frees_a_place
              (connection "c" (Scenario.after Scenario.two_party)) "b"
              (mkSocket (Some Scenario.keyA) (Some "Bob")) "c"
              (Scenario.byPasscode "123456" "Carol")
              (mkRoom Scenario.keyA 2401000))
    as (s1 & out1 & s2 & out2 & Hquit & _ & Hjoin & Hout & _).
  - apply (run_fresh_reachable initial (Scenario.two_party ++ [Connection "c"]) _
             reachable_fresh_initial eq_refl).
  - vm_compute. reflexivity.
  - reflexivity.
  - vm_compute. set_solver.
  - vm_compute. reflexivity.
  - exists (mkSocket None None). vm_compute. reflexivity.
  - exists s1, out1, s2, out2. split; [exact Hquit|]. split; [exact Hjoin|].
    exact Hout.
Defined.

(** X15.  After the expiry: in a reachable state, once the timeout of a
    room has fired, a [joinRoom] with the passcode of the room is answered
    ["Invalid or expired passcode."], and a [sendMessage] of a socket whose
    [socket.roomId] is still the key of the room reaches nobody. *)
Theorem expired_room_is_silent s p r s' out c sk :
  reachable s →
  step s (Timeout p r) = Some (s', out) →
  sockets s' !! c = Some sk →
  (∀ name rid,
     step s' (JoinRoom c (mkJoinArgs (Some p) rid name))
     = Some (s', [(c, systemMessage "Invalid or expired passcode.")])) ∧
  (socket_roomId sk = Some r →
   ∀ message, step s' (SendMessage c message) = Some (s', [])).
Proof.
  intros Hs Hstep Hc.
  pose proof (reachable_timers_inv _ Hs) as [Ht _].
  pose proof (reachable_keys_generated _ Hs) as Hkeys.
  apply step_timeout in Hstep as (l1 & l2 & Htm & _ & _ & Hcase).
  destruct (Ht p r) as (room & Hroom & _).
  { rewrite Htm. apply elem_of_app. right. by left. }
  destruct (Hkeys _ _ Hroom) as [[k ->] _].
  destruct Hcase as [(_ & Hrooms & _ & Ha & _)|(Hnone & _)]; [|congruence].
  split.
  - intros name rid. simpl. rewrite Hc. simpl. unfold joinRoom, findRoom. simpl.
    rewrite (bool_decide_eq_true_2 _ (candidate_nonempty k)), candidate_trim.
    by rewrite Hrooms, lookup_delete_eq.
  - intros Hrid message. simpl. rewrite Hc. simpl. unfold sendMessage.
    rewrite Hrid. simpl. case_bool_decide; [|done]. simpl.
    unfold socket_to_emit. rewrite membersOf_None by (by rewrite Ha, lookup_delete_eq).
    replace (∅ ∖ {[c]} : gset string) with (∅ : gset string) by set_solver.
    by rewrite elements_empty.
Qed.

Lemma expired_room_is_silent_witness :
  step (Scenario.after
          (Scenario.two_party ++ [Timeout "123456" Scenario.keyA]))
    (SendMessage "b" "anyone?")
  = Some (Scenario.after
            (Scenario.two_party ++ [Timeout "123456" Scenario.keyA]), []).
Proof.
  refine (proj2
    (expired_room_is_silent (Scenario.after Scenario.two_party)
       "123456" Scenario.keyA
       (Scenario.after (Scenario.two_party ++ [Timeout "123456" Scenario.keyA]))
       (Scenario.last_emitted
          (Scenario.two_party ++ [Timeout "123456" Scenario.keyA]))
       "b" (mkSocket (Some Scenario.keyA) (Some "Bob")) _ _ _) _ "anyone?").
  - apply (run_reachable initial Scenario.two_party _
             [[]; []; [("a", roomCreated "123456" Scenario.keyA 2401000%Z)];
              Scenario.last_emitted Scenario.two_party]
             reachable_initial eq_refl).
  - vm_compute. reflexivity.
  - vm_compute. reflexivity.
  - reflexivity.
Defined.
